(** * Binary tree algorithms of [main.cpp]: traversals, structural equality,
      horizontal views and the postorder sum transform.

    The development has two embeddings of the program.

    - The {e tree model}: a [NodePtr] that owns a strict rooted tree is an
      inductive [tree] ([Leaf] is [nullptr]).  The traversals, the views and
      the sum transform are functions over it; [while] loops carry a step
      budget and report the faults the C++ code can run into (a read of the
      top of an empty [std::stack], a dereference of [nullptr]).
    - The {e store model} ([Module Heap]): nodes live in a store indexed by
      addresses, and every function of the program is a computation in a
      state-and-fault monad over that store and the output stream.  It is
      used to state which functions write to the nodes they are handed. *)

From Stdlib Require Import ZArith Lia List Bool Sorted.
From stdpp Require Import base option list gmap.
Import ListNotations.

Local Open Scope Z_scope.

(** ** The C++ [int] *)

(** [int] is a 32-bit two's complement integer.  Values are kept in [Z] and
    every arithmetic result is brought back into the range by [int_wrap]. *)
Module Int.

Definition min_int : Z := - 2 ^ 31.
Definition max_int : Z := 2 ^ 31 - 1.

Definition in_range (z : Z) : Prop := min_int <= z <= max_int.

Definition int_wrap (z : Z) : Z := (z + 2 ^ 31) mod 2 ^ 32 - 2 ^ 31.

Definition int_add (a b : Z) : Z := int_wrap (a + b).
Definition int_sub (a b : Z) : Z := int_wrap (a - b).

End Int.
Import Int.

(** ** Tree model *)

(** [struct Node { int data; NodePtr right; NodePtr left; }] owned through a
    [NodePtr]; the absent pointer is [Leaf]. *)
Inductive tree : Type :=
| Leaf : tree
| Node (left : tree) (data : Z) (right : tree) : tree.

(** What an imperative loop can end in. *)
Inductive fault : Type :=
| NullDeref        (* [p->field] with [p == nullptr] *)
| EmptyStackRead   (* [stack.top()] or [stack.pop()] on an empty stack *)
| Dangling.        (* store model only: an address that holds no node *)

Inductive outcome (A : Type) : Type :=
| Done (a : A)
| Fault (f : fault)
| OutOfFuel.
Arguments Done {A} a.
Arguments Fault {A} f.
Arguments OutOfFuel {A}.

(** *** Depth-first traversals *)

(** Each traversal returns the sequence of values it writes to [std::cout]. *)

Fixpoint inorderRecursive (node : tree) : list Z :=
  match node with
  | Leaf => []
  | Node l v r => inorderRecursive l ++ [v] ++ inorderRecursive r
  end.

(** The loop of [inorderIterative].  [stack] has its top at the head.  The
    loop test [!stack.empty() || curr != nullptr] is evaluated first; one unit
    of [fuel] pays for one run of the body. *)
Fixpoint inorderIterative_loop (fuel : nat) (stack : list tree) (curr : tree)
    (out : list Z) : outcome (list Z) :=
  match stack, curr with
  | [], Leaf => Done out
  | _, _ =>
    match fuel with
    | O => OutOfFuel
    | S fuel' =>
      match curr with
      | Leaf =>
        (* [if (!curr)]: [stack.push(curr); curr = curr->left;] *)
        Fault NullDeref
      | Node _ _ _ =>
        (* else: [curr = stack.top(); stack.pop();] *)
        match stack with
        | [] => Fault EmptyStackRead
        | top :: stack' =>
          match top with
          | Leaf => Fault NullDeref
          | Node _ v r => inorderIterative_loop fuel' stack' r (out ++ [v])
          end
        end
      end
    end
  end.

Definition inorderIterative (fuel : nat) (node : tree) : outcome (list Z) :=
  inorderIterative_loop fuel [] node [].

Fixpoint preorderRecursive (node : tree) : list Z :=
  match node with
  | Leaf => []
  | Node l v r => [v] ++ preorderRecursive l ++ preorderRecursive r
  end.

(** [if (p) stack.push(p);] *)
Definition push_present (p : tree) (stack : list tree) : list tree :=
  match p with
  | Leaf => stack
  | Node _ _ _ => p :: stack
  end.

Fixpoint preorderIterative_loop (fuel : nat) (stack : list tree) (out : list Z)
    : outcome (list Z) :=
  match stack with
  | [] => Done out
  | curr :: stack' =>
    match fuel with
    | O => OutOfFuel
    | S fuel' =>
      match curr with
      | Leaf => Fault NullDeref
      | Node l v r =>
        preorderIterative_loop fuel'
          (push_present l (push_present r stack')) (out ++ [v])
      end
    end
  end.

Definition preorderIterative (fuel : nat) (node : tree) : outcome (list Z) :=
  match node with
  | Leaf => Done []
  | Node _ _ _ => preorderIterative_loop fuel [node] []
  end.

(** [postorderRecursive] calls [inorderRecursive] on both children. *)
Definition postorderRecursive (node : tree) : list Z :=
  match node with
  | Leaf => []
  | Node l v r => inorderRecursive l ++ inorderRecursive r ++ [v]
  end.

(** First loop of [postorderIterative]: [out] is the [std::stack<int>], top
    at the head. *)
Fixpoint postorderIterative_loop (fuel : nat) (stack : list tree) (out : list Z)
    : outcome (list Z) :=
  match stack with
  | [] => Done out
  | curr :: stack' =>
    match fuel with
    | O => OutOfFuel
    | S fuel' =>
      match curr with
      | Leaf => Fault NullDeref
      | Node l v r =>
        postorderIterative_loop fuel'
          (push_present r (push_present l stack')) (v :: out)
      end
    end
  end.

(** Second loop: print [out.top()] and pop until [out] is empty. *)
Fixpoint drain (out : list Z) : list Z :=
  match out with
  | [] => []
  | top :: out' => top :: drain out'
  end.

Definition postorderIterative (fuel : nat) (node : tree) : outcome (list Z) :=
  match node with
  | Leaf => Done []
  | Node _ _ _ =>
    match postorderIterative_loop fuel [node] [] with
    | Done out => Done (drain out)
    | Fault f => Fault f
    | OutOfFuel => OutOfFuel
    end
  end.

(** *** Structural equality *)

(** [isIdentical] returns an [int]: the value of the [&&] chain, 1 or 0. *)
Fixpoint isIdentical (x y : tree) : Z :=
  match x, y with
  | Leaf, Leaf => 1
  | Node xl xv xr, Node yl yv yr =>
    Z.b2z ((xv =? yv)
           && negb (isIdentical xl yl =? 0)
           && negb (isIdentical xr yr =? 0))
  | _, _ => 0
  end.

(** *** [std::map<int, std::pair<int, int>>] *)

(** An ordered map is the list of its entries in ascending key order, which
    is the order a range-[for] visits them in.  An entry is
    [(key, (first, second))]. *)
Definition stdmap : Type := list (Z * (Z * Z)).

Fixpoint map_find (m : stdmap) (k : Z) : option (Z * Z) :=
  match m with
  | [] => None
  | (k', p) :: m' => if k =? k' then Some p else map_find m' k
  end.

(** [m[k] = p]. *)
Fixpoint map_assign (m : stdmap) (k : Z) (p : Z * Z) : stdmap :=
  match m with
  | [] => [(k, p)]
  | (k', p') :: m' =>
    if k <? k' then (k, p) :: (k', p') :: m'
    else if k =? k' then (k, p) :: m'
    else (k', p') :: map_assign m' k p
  end.

(** [m[k]] read as a value: an absent key is first inserted with the
    value-initialised pair [{0, 0}]. *)
Definition map_index (m : stdmap) (k : Z) : stdmap * (Z * Z) :=
  match map_find m k with
  | Some p => (m, p)
  | None => (map_assign m k (0, 0), (0, 0))
  end.

(** [for (auto it : map) std::cout << it.second.first]. *)
Definition map_firsts (m : stdmap) : list Z :=
  List.map (fun it => fst (snd it)) m.

(** *** Horizontal views *)

(** The body of the four-argument [printBottom] before its recursive calls. *)
Definition printBottom_visit (map : stdmap) (dist level v : Z) : stdmap :=
  let '(map1, rec) := map_index map dist in
  if level >=? snd rec then map_assign map1 dist (v, level) else map1.

Fixpoint printBottom_fill (node : tree) (dist level : Z) (map : stdmap)
    : stdmap :=
  match node with
  | Leaf => map
  | Node l v r =>
    let map1 := printBottom_visit map dist level v in
    let map2 := printBottom_fill l (int_sub dist 1) (int_add level 1) map1 in
    printBottom_fill r (int_add dist 1) (int_add level 1) map2
  end.

Definition printBottom (root : tree) : list Z :=
  map_firsts (printBottom_fill root 0 0 []).

(** The body of the four-argument [printTop] before its recursive calls;
    [||] evaluates [map[dist]] only when the key is present. *)
Definition printTop_visit (map : stdmap) (dist level v : Z) : stdmap :=
  match map_find map dist with
  | None => map_assign map dist (v, level)
  | Some rec =>
    if level <? snd rec then map_assign map dist (v, level) else map
  end.

Fixpoint printTop_fill (node : tree) (dist level : Z) (map : stdmap)
    : stdmap :=
  match node with
  | Leaf => map
  | Node l v r =>
    let map1 := printTop_visit map dist level v in
    let map2 := printTop_fill l (int_sub dist 1) (int_add level 1) map1 in
    printTop_fill r (int_add dist 1) (int_add level 1) map2
  end.

Definition printTop (root : tree) : list Z :=
  map_firsts (printTop_fill root 0 0 []).

(** *** Postorder sum transform *)

(** [sumPostorder] returns its [int] together with the tree as it leaves
    it. *)
Fixpoint sumPostorder (node : tree) : Z * tree :=
  match node with
  | Leaf => (0, Leaf)
  | Node l v r =>
    let '(leftSum, l') := sumPostorder l in
    let '(rightSum, r') := sumPostorder r in
    let prevData := v in
    let data' := int_add leftSum rightSum in
    (int_add data' prevData, Node l' data' r')
  end.

(** ** Store model *)

(** Nodes are allocated in a store; a [NodePtr] is an address or [nullptr].
    Every function of the program is a computation that reads and writes the
    store and appends to [std::cout].  Recursion and loops carry a budget. *)
Module Heap.

Definition ptr : Type := option nat.

Record node : Type := mk_node { data : Z; right : ptr; left : ptr }.

Record state : Type := mk_state { mem : gmap nat node; cout : list Z }.

Definition M (A : Type) : Type := state -> outcome A * state.

Definition ret {A} (a : A) : M A := fun s => (Done a, s).

Definition bind {A B} (c : M A) (k : A -> M B) : M B :=
  fun s =>
    match c s with
    | (Done a, s') => k a s'
    | (Fault f, s') => (Fault f, s')
    | (OutOfFuel, s') => (OutOfFuel, s')
    end.

Definition fail {A} (f : fault) : M A := fun s => (Fault f, s).
Definition out_of_fuel {A} : M A := fun s => (OutOfFuel, s).

Declare Scope heap_scope.
Delimit Scope heap_scope with heap.
Notation "x <- c ;; k" := (bind c (fun x => k))
  (at level 100, c at next level, right associativity) : heap_scope.
Notation "c ;; k" := (bind c (fun _ => k))
  (at level 100, right associativity) : heap_scope.
Local Open Scope heap_scope.

(** [*p] *)
Definition deref (p : ptr) : M node :=
  fun s =>
    match p with
    | None => (Fault NullDeref, s)
    | Some a =>
      match mem s !! a with
      | Some n => (Done n, s)
      | None => (Fault Dangling, s)
      end
    end.

Definition get_data (p : ptr) : M Z := n <- deref p ;; ret (data n).
Definition get_left (p : ptr) : M ptr := n <- deref p ;; ret (left n).
Definition get_right (p : ptr) : M ptr := n <- deref p ;; ret (right n).

(** [p->data = v] *)
Definition set_data (p : ptr) (v : Z) : M unit :=
  n <- deref p ;;
  fun s =>
    match p with
    | None => (Fault NullDeref, s)
    | Some a =>
      (Done tt,
       {| mem := <[a := {| data := v; right := right n; left := left n |}]> (mem s);
          cout := cout s |})
    end.

(** [std::cout << v << " "] *)
Definition print (v : Z) : M unit :=
  fun s => (Done tt, {| mem := mem s; cout := cout s ++ [v] |}).

Fixpoint inorderRecursive (fuel : nat) (node : ptr) : M unit :=
  match fuel with
  | O => out_of_fuel
  | S fuel' =>
    match node with
    | None => ret tt
    | Some _ =>
      l <- get_left node ;;
      inorderRecursive fuel' l ;;
      v <- get_data node ;;
      print v ;;
      r <- get_right node ;;
      inorderRecursive fuel' r
    end
  end.

Fixpoint inorderIterative_loop (fuel : nat) (stack : list ptr) (curr : ptr)
    : M unit :=
  match stack, curr with
  | [], None => ret tt
  | _, _ =>
    match fuel with
    | O => out_of_fuel
    | S fuel' =>
      match curr with
      | None =>
        l <- get_left curr ;;
        inorderIterative_loop fuel' (curr :: stack) l
      | Some _ =>
        match stack with
        | [] => fail EmptyStackRead
        | top :: stack' =>
          v <- get_data top ;;
          print v ;;
          r <- get_right top ;;
          inorderIterative_loop fuel' stack' r
        end
      end
    end
  end.

Definition inorderIterative (fuel : nat) (node : ptr) : M unit :=
  inorderIterative_loop fuel [] node.

Fixpoint preorderRecursive (fuel : nat) (node : ptr) : M unit :=
  match fuel with
  | O => out_of_fuel
  | S fuel' =>
    match node with
    | None => ret tt
    | Some _ =>
      v <- get_data node ;;
      print v ;;
      l <- get_left node ;;
      preorderRecursive fuel' l ;;
      r <- get_right node ;;
      preorderRecursive fuel' r
    end
  end.

(** [if (p) stack.push(p);] *)
Definition push_present (p : ptr) (stack : list ptr) : list ptr :=
  match p with
  | None => stack
  | Some _ => p :: stack
  end.

Fixpoint preorderIterative_loop (fuel : nat) (stack : list ptr) : M unit :=
  match stack with
  | [] => ret tt
  | curr :: stack' =>
    match fuel with
    | O => out_of_fuel
    | S fuel' =>
      v <- get_data curr ;;
      print v ;;
      r <- get_right curr ;;
      l <- get_left curr ;;
      preorderIterative_loop fuel' (push_present l (push_present r stack'))
    end
  end.

Definition preorderIterative (fuel : nat) (node : ptr) : M unit :=
  match node with
  | None => ret tt
  | Some _ => preorderIterative_loop fuel [node]
  end.

Definition postorderRecursive (fuel : nat) (node : ptr) : M unit :=
  match node with
  | None => ret tt
  | Some _ =>
    l <- get_left node ;;
    inorderRecursive fuel l ;;
    r <- get_right node ;;
    inorderRecursive fuel r ;;
    v <- get_data node ;;
    print v
  end.

Fixpoint postorderIterative_loop (fuel : nat) (stack : list ptr) (out : list Z)
    : M (list Z) :=
  match stack with
  | [] => ret out
  | curr :: stack' =>
    match fuel with
    | O => out_of_fuel
    | S fuel' =>
      v <- get_data curr ;;
      l <- get_left curr ;;
      r <- get_right curr ;;
      postorderIterative_loop fuel'
        (push_present r (push_present l stack')) (v :: out)
    end
  end.

Fixpoint print_stack (out : list Z) : M unit :=
  match out with
  | [] => ret tt
  | top :: out' => print top ;; print_stack out'
  end.

Definition postorderIterative (fuel : nat) (node : ptr) : M unit :=
  match node with
  | None => ret tt
  | Some _ =>
    out <- postorderIterative_loop fuel [node] [] ;;
    print_stack out
  end.

(** The [&&] chain of [isIdentical] is evaluated left to right and stops at
    the first operand that is false. *)
Fixpoint isIdentical (fuel : nat) (x y : ptr) : M Z :=
  match fuel with
  | O => out_of_fuel
  | S fuel' =>
    match x, y with
    | None, None => ret 1
    | Some _, Some _ =>
      xv <- get_data x ;;
      yv <- get_data y ;;
      if xv =? yv then
        xl <- get_left x ;;
        yl <- get_left y ;;
        a <- isIdentical fuel' xl yl ;;
        if a =? 0 then ret 0
        else
          xr <- get_right x ;;
          yr <- get_right y ;;
          b <- isIdentical fuel' xr yr ;;
          ret (Z.b2z (negb (b =? 0)))
      else ret 0
    | _, _ => ret 0
    end
  end.

(** The [std::map&] parameter is threaded through the calls. *)
Fixpoint printBottom_fill (fuel : nat) (node : ptr) (dist level : Z)
    (map : stdmap) : M stdmap :=
  match fuel with
  | O => out_of_fuel
  | S fuel' =>
    match node with
    | None => ret map
    | Some _ =>
      let '(map1, rec) := map_index map dist in
      map2 <-
        (if level >=? snd rec
         then v <- get_data node ;; ret (map_assign map1 dist (v, level))
         else ret map1) ;;
      l <- get_left node ;;
      map3 <- printBottom_fill fuel' l (int_sub dist 1) (int_add level 1) map2 ;;
      r <- get_right node ;;
      printBottom_fill fuel' r (int_add dist 1) (int_add level 1) map3
    end
  end.

Definition printBottom (fuel : nat) (root : ptr) : M unit :=
  map <- printBottom_fill fuel root 0 0 [] ;;
  print_stack (map_firsts map).

Fixpoint printTop_fill (fuel : nat) (node : ptr) (dist level : Z)
    (map : stdmap) : M stdmap :=
  match fuel with
  | O => out_of_fuel
  | S fuel' =>
    match node with
    | None => ret map
    | Some _ =>
      map1 <-
        (match map_find map dist with
         | None => v <- get_data node ;; ret (map_assign map dist (v, level))
         | Some rec =>
           if level <? snd rec
           then v <- get_data node ;; ret (map_assign map dist (v, level))
           else ret map
         end) ;;
      l <- get_left node ;;
      map2 <- printTop_fill fuel' l (int_sub dist 1) (int_add level 1) map1 ;;
      r <- get_right node ;;
      printTop_fill fuel' r (int_add dist 1) (int_add level 1) map2
    end
  end.

Definition printTop (fuel : nat) (root : ptr) : M unit :=
  map <- printTop_fill fuel root 0 0 [] ;;
  print_stack (map_firsts map).

Fixpoint sumPostorder (fuel : nat) (node : ptr) : M Z :=
  match fuel with
  | O => out_of_fuel
  | S fuel' =>
    match node with
    | None => ret 0
    | Some _ =>
      l <- get_left node ;;
      leftSum <- sumPostorder fuel' l ;;
      r <- get_right node ;;
      rightSum <- sumPostorder fuel' r ;;
      prevData <- get_data node ;;
      set_data node (int_add leftSum rightSum) ;;
      v <- get_data node ;;
      ret (int_add v prevData)
    end
  end.

(** A computation that leaves every node of the store as it found it. *)
Definition readonly {A} (c : M A) : Prop :=
  forall s, mem (snd (c s)) = mem s.

(** [repr h p t]: in store [h], the pointer [p] owns the tree [t]. *)
Inductive repr (h : gmap nat node) : ptr -> tree -> Prop :=
| repr_null : repr h None Leaf
| repr_node a n l r :
    h !! a = Some n ->
    repr h (left n) l ->
    repr h (right n) r ->
    repr h (Some a) (Node l (data n) r).

(** [owns h p t fp]: [p] owns [t] exclusively; its nodes are the addresses
    [fp], each reached once (no child is shared). *)
Inductive owns (h : gmap nat node) : ptr -> tree -> gset nat -> Prop :=
| owns_null : owns h None Leaf ∅
| owns_node a n l r fl fr :
    h !! a = Some n ->
    owns h (left n) l fl ->
    owns h (right n) r fr ->
    a ∉ fl -> a ∉ fr -> fl ## fr ->
    owns h (Some a) (Node l (data n) r) ({[a]} ∪ fl ∪ fr).

(** A run [r] of a printing computation, started with the output [out0]
    already written, ends as the tree-model loop [pure] does. *)
Definition agrees (h : gmap nat node) (pure : outcome (list Z))
    (r : outcome unit * state) : Prop :=
  match pure with
  | Done out => r = (Done tt, mk_state h out)
  | Fault f => exists out, r = (Fault f, mk_state h out)
  | OutOfFuel => exists out, r = (OutOfFuel, mk_state h out)
  end.

(** The tree of [main], allocated at addresses 1 to 8 (the address is the
    value the node holds). *)
Definition sample_mem : gmap nat node :=
  list_to_map
    [ (1%nat, mk_node 1 (Some 3%nat) (Some 2%nat));
      (2%nat, mk_node 2 None (Some 4%nat));
      (3%nat, mk_node 3 (Some 6%nat) (Some 5%nat));
      (4%nat, mk_node 4 None None);
      (5%nat, mk_node 5 (Some 8%nat) (Some 7%nat));
      (6%nat, mk_node 6 None None);
      (7%nat, mk_node 7 None None);
      (8%nat, mk_node 8 None None) ].

Definition sample_state : state := {| mem := sample_mem; cout := [] |}.

(** [same_links h h']: the two stores hold nodes at the same addresses, with
    the same [left] and [right] pointers; only [data] may differ. *)
Definition same_links (h h' : gmap nat node) : Prop :=
  forall a,
    match h !! a, h' !! a with
    | Some n, Some n' => left n' = left n /\ right n' = right n
    | None, None => True
    | _, _ => False
    end.

(** A computation that prints nothing and keeps the links of the store. *)
Definition keeps_links {A} (c : M A) : Prop :=
  forall s, same_links (mem s) (mem (snd (c s))) /\ cout (snd (c s)) = cout s.


End Heap.

(** The tree built in [main]. *)
Definition leaf_node (v : Z) : tree := Node Leaf v Leaf.

Definition sample : tree :=
  Node (Node (leaf_node 4) 2 Leaf)
       1
       (Node (Node (leaf_node 7) 5 (leaf_node 8)) 3 (leaf_node 6)).

(** ** Reference notions *)

(** The notions the properties below are stated with.  They are not
    translations of code: they say what a traversal order, a coordinate or a
    sum is. *)

(** Number of nodes and height (a single node has height 1). *)
Fixpoint node_count (t : tree) : nat :=
  match t with
  | Leaf => O
  | Node l _ r => S (node_count l + node_count r)
  end.

Fixpoint tree_height (t : tree) : Z :=
  match t with
  | Leaf => 0
  | Node l _ r => 1 + Z.max (tree_height l) (tree_height r)
  end.

Definition present (t : tree) : Prop := t <> Leaf.

(** The three orders of the traversal contract: inorder is (left, self,
    right), preorder is (self, left, right), postorder is (left, right,
    self). *)
Fixpoint inorder (t : tree) : list Z :=
  match t with
  | Leaf => []
  | Node l v r => inorder l ++ v :: inorder r
  end.

Fixpoint preorder (t : tree) : list Z :=
  match t with
  | Leaf => []
  | Node l v r => v :: preorder l ++ preorder r
  end.

Fixpoint postorder (t : tree) : list Z :=
  match t with
  | Leaf => []
  | Node l v r => postorder l ++ postorder r ++ [v]
  end.

(** The smallest tree on which inorder of the subtrees and postorder of the
    subtrees differ: 1 with left child 2, whose right child is 3. *)
Definition skewed : tree := Node (Node Leaf 2 (leaf_node 3)) 1 Leaf.

(** A node placed in the plane: horizontal distance (root 0, left child
    one less, right child one more), level (root 0, a child one more) and
    the value it holds. *)
Record placed : Type := mk_placed { p_dist : Z; p_level : Z; p_value : Z }.

(** The placed nodes of a tree in preorder, for a root at [(dist, level)]. *)
Fixpoint coords (t : tree) (dist level : Z) : list placed :=
  match t with
  | Leaf => []
  | Node l v r =>
    mk_placed dist level v
      :: coords l (dist - 1) (level + 1) ++ coords r (dist + 1) (level + 1)
  end.

(** [e] is the bottom node of its distance in the preorder list [cs]: no
    node of that distance before it is deeper, every one after it is
    strictly shallower. *)
Definition is_bottom_of (e : placed) (cs : list placed) : Prop :=
  exists pre post,
    cs = pre ++ e :: post /\
    (forall c, In c pre -> p_dist c = p_dist e -> p_level c <= p_level e) /\
    (forall c, In c post -> p_dist c = p_dist e -> p_level c < p_level e).

(** [e] is the top node of its distance in [cs]: every node of that distance
    before it is strictly deeper, no one after it is shallower. *)
Definition is_top_of (e : placed) (cs : list placed) : Prop :=
  exists pre post,
    cs = pre ++ e :: post /\
    (forall c, In c pre -> p_dist c = p_dist e -> p_level e < p_level c) /\
    (forall c, In c post -> p_dist c = p_dist e -> p_level e <= p_level c).

(** A map entry [(dist, (value, level))] read as a placed node. *)
Definition entry_placed (it : Z * (Z * Z)) : placed :=
  mk_placed (fst it) (snd (snd it)) (fst (snd it)).

Definition keys (m : stdmap) : list Z := List.map fst m.

(** The visits of the two views as steps over a placed node. *)
Definition bottom_step (m : stdmap) (c : placed) : stdmap :=
  printBottom_visit m (p_dist c) (p_level c) (p_value c).

Definition top_step (m : stdmap) (c : placed) : stdmap :=
  printTop_visit m (p_dist c) (p_level c) (p_value c).

(** The coordinates of every node of [t], for a root at [(dist, level)],
    are [int] values and the levels are not negative. *)
Definition fits (t : tree) (dist level : Z) : Prop :=
  present t ->
  min_int <= dist - (tree_height t - 1) /\
  dist + (tree_height t - 1) <= max_int /\
  0 <= level /\
  level + (tree_height t - 1) <= max_int.

(** The sum of the values of a tree, as a mathematical integer, and the
    same sum as the [int] the program computes with. *)
Fixpoint tree_sum (t : tree) : Z :=
  match t with
  | Leaf => 0
  | Node l v r => tree_sum l + v + tree_sum r
  end.

Definition int_sum (t : tree) : Z := int_wrap (tree_sum t).

(** The sum of the values, each multiplied by the depth of its node, for a
    root at depth [k]. *)
Fixpoint depth_sum (t : tree) (k : Z) : Z :=
  match t with
  | Leaf => 0
  | Node l v r => depth_sum l (k + 1) + v * k + depth_sum r (k + 1)
  end.

(** The tree in which every node holds the sum of the values that its two
    subtrees hold in [t]. *)
Fixpoint sum_tree (t : tree) : tree :=
  match t with
  | Leaf => Leaf
  | Node l _ r => Node (sum_tree l) (int_wrap (tree_sum l + tree_sum r)) (sum_tree r)
  end.

Definition root_data (t : tree) : Z :=
  match t with
  | Leaf => 0
  | Node _ v _ => v
  end.

(** Every node of [t] holds the sum of the values that the subtrees of its
    children hold in [t] itself. *)
Fixpoint holds_subtree_sums (t : tree) : bool :=
  match t with
  | Leaf => true
  | Node l v r =>
    (v =? int_wrap (tree_sum l + tree_sum r))
    && holds_subtree_sums l && holds_subtree_sums r
  end.

(** Every node of [t] holds the sum of the values its two children hold in
    [t] itself. *)
Fixpoint holds_child_sums (t : tree) : bool :=
  match t with
  | Leaf => true
  | Node l v r =>
    (v =? int_wrap (root_data l + root_data r))
    && holds_child_sums l && holds_child_sums r
  end.

(** Two nodes: 1 with the single child 2; and 0 with the single child 5. *)
Definition pair_tree : tree := Node (leaf_node 2) 1 Leaf.
Definition zero_root : tree := Node (leaf_node 5) 0 Leaf.

(** The [n] consecutive integers from [lo] on. *)
Fixpoint z_range (lo : Z) (n : nat) : list Z :=
  match n with
  | O => []
  | S n' => lo :: z_range (lo + 1) n'
  end.

(** The horizontal distances of the nodes of [t], for a root at [dist]. *)
Definition columns (t : tree) (dist : Z) : list Z :=
  List.map p_dist (coords t dist 0).

Example sample_inorder : inorderRecursive sample = [4; 2; 1; 7; 5; 8; 3; 6].
Proof. reflexivity. Qed.
Example sample_preorder : preorderRecursive sample = [1; 2; 4; 3; 5; 7; 8; 6].
Proof. reflexivity. Qed.
Example sample_preorderI : preorderIterative 8 sample = Done [1; 2; 4; 3; 5; 7; 8; 6].
Proof. reflexivity. Qed.
Example sample_postorder : postorderRecursive sample = [4; 2; 7; 5; 8; 3; 6; 1].
Proof. reflexivity. Qed.
Example sample_postorderI : postorderIterative 8 sample = Done [4; 2; 7; 8; 5; 6; 3; 1].
Proof. reflexivity. Qed.
Example sample_inorderI : inorderIterative 8 sample = Fault EmptyStackRead.
Proof. reflexivity. Qed.
Example sample_bottom : printBottom sample = [4; 7; 5; 8; 6].
Proof. reflexivity. Qed.
Example sample_top : printTop sample = [4; 2; 1; 3; 6].
Proof. reflexivity. Qed.
Example sample_sum : fst (sumPostorder sample) = 36 /\
  inorderRecursive (snd (sumPostorder sample)) = [0; 4; 35; 0; 15; 0; 26; 0].
Proof. split; reflexivity. Qed.

(** ** Integer arithmetic *)

Lemma int_wrap_small z : in_range z -> int_wrap z = z.
Proof.
  unfold in_range, min_int, max_int, int_wrap. intros Hz.
  rewrite Z.mod_small; lia.
Qed.

Lemma int_wrap_range z : in_range (int_wrap z).
Proof.
  unfold in_range, min_int, max_int, int_wrap.
  pose proof (Z.mod_pos_bound (z + 2 ^ 31) (2 ^ 32) ltac:(lia)). lia.
Qed.

Lemma int_wrap_idem z : int_wrap (int_wrap z) = int_wrap z.
Proof. apply int_wrap_small, int_wrap_range. Qed.

Lemma int_wrap_add_l a b : int_wrap (int_wrap a + b) = int_wrap (a + b).
Proof.
  unfold int_wrap.
  replace ((a + 2 ^ 31) mod 2 ^ 32 - 2 ^ 31 + b + 2 ^ 31)
    with ((a + 2 ^ 31) mod 2 ^ 32 + b) by lia.
  rewrite Zplus_mod_idemp_l. do 2 f_equal. lia.
Qed.

Lemma int_wrap_add_r a b : int_wrap (a + int_wrap b) = int_wrap (a + b).
Proof. rewrite (Z.add_comm a), int_wrap_add_l. f_equal. lia. Qed.

Lemma int_wrap_zero_iff z : in_range z -> int_wrap z = 0 <-> z = 0.
Proof. intros Hz. rewrite int_wrap_small; tauto. Qed.

(** ** Depth-first traversals *)

Lemma inorderRecursive_inorder t : inorderRecursive t = inorder t.
Proof. induction t as [|l IHl v r IHr]; simpl; congruence. Qed.

Lemma preorderRecursive_preorder t : preorderRecursive t = preorder t.
Proof. induction t as [|l IHl v r IHr]; simpl; congruence. Qed.

Lemma postorderRecursive_unfold l v r :
  postorderRecursive (Node l v r) = inorder l ++ inorder r ++ [v].
Proof. simpl. now rewrite !inorderRecursive_inorder. Qed.

(** Nodes held by a stack of subtrees. *)
Definition stack_nodes (stack : list tree) : nat :=
  list_sum (List.map node_count stack).

Lemma present_count t : present t -> (1 <= node_count t)%nat.
Proof. destruct t; unfold present; simpl; [congruence | lia]. Qed.

Lemma push_present_Forall p stack :
  Forall present stack -> Forall present (push_present p stack).
Proof.
  intros H. destruct p; simpl; [exact H|].
  constructor; [unfold present; discriminate | exact H].
Qed.

Lemma push_present_nodes p stack :
  stack_nodes (push_present p stack) = (node_count p + stack_nodes stack)%nat.
Proof. destruct p; reflexivity. Qed.

Lemma push_present_flat (f : tree -> list Z) p stack :
  f Leaf = [] ->
  flat_map f (push_present p stack) = f p ++ flat_map f stack.
Proof. intros Hf. destruct p; simpl; [now rewrite Hf | reflexivity]. Qed.

(** The preorder loop empties a stack of present nodes in as many steps as
    the stack holds nodes, and prints the preorder of each in turn. *)
Lemma preorderIterative_loop_run fuel :
  forall stack out,
    Forall present stack ->
    (stack_nodes stack <= fuel)%nat ->
    preorderIterative_loop fuel stack out
    = Done (out ++ flat_map preorder stack).
Proof.
  induction fuel as [|fuel IH]; intros stack out Hp Hn.
  - destruct stack as [|c stack]; simpl.
    + now rewrite app_nil_r.
    + apply Forall_cons in Hp as [Hc _]. apply present_count in Hc.
      unfold stack_nodes in Hn. simpl in Hn. lia.
  - destruct stack as [|c stack]; simpl.
    + now rewrite app_nil_r.
    + apply Forall_cons in Hp as [Hc Hs].
      destruct c as [|l v r]; [now elim Hc|].
      rewrite IH.
      * rewrite !push_present_flat by reflexivity. simpl.
        now rewrite <- !app_assoc.
      * now do 2 apply push_present_Forall.
      * rewrite !push_present_nodes.
        unfold stack_nodes in *. simpl in Hn. lia.
Qed.

Theorem preorderIterative_correct t fuel :
  (node_count t <= fuel)%nat ->
  preorderIterative fuel t = Done (preorderRecursive t).
Proof.
  intros Hf. rewrite preorderRecursive_preorder.
  destruct t as [|l v r]; [reflexivity|].
  unfold preorderIterative. rewrite preorderIterative_loop_run.
  - simpl. now rewrite app_nil_r.
  - constructor; [unfold present; discriminate | constructor].
  - unfold stack_nodes. simpl in *. lia.
Qed.

(** The first loop of [postorderIterative] pops the nodes in the mirror
    order (self, right, left); the second stack reverses it. *)
Lemma postorderIterative_loop_run fuel :
  forall stack out,
    Forall present stack ->
    (stack_nodes stack <= fuel)%nat ->
    postorderIterative_loop fuel stack out
    = Done (rev (flat_map (fun t => rev (postorder t)) stack) ++ out).
Proof.
  induction fuel as [|fuel IH]; intros stack out Hp Hn.
  - destruct stack as [|c stack]; simpl; [reflexivity|].
    apply Forall_cons in Hp as [Hc _]. apply present_count in Hc.
    unfold stack_nodes in Hn. simpl in Hn. lia.
  - destruct stack as [|c stack]; simpl; [reflexivity|].
    apply Forall_cons in Hp as [Hc Hs].
    destruct c as [|l v r]; [now elim Hc|].
    rewrite IH.
    + rewrite !push_present_flat by reflexivity. simpl.
      repeat (rewrite ?rev_app_distr, ?rev_involutive; simpl).
      now rewrite <- !app_assoc.
    + now do 2 apply push_present_Forall.
    + rewrite !push_present_nodes.
      unfold stack_nodes in *. simpl in Hn. lia.
Qed.

Lemma drain_id out : drain out = out.
Proof. induction out; simpl; congruence. Qed.

Theorem postorderIterative_correct t fuel :
  (node_count t <= fuel)%nat ->
  postorderIterative fuel t = Done (postorder t).
Proof.
  intros Hf. destruct t as [|l v r]; [reflexivity|].
  unfold postorderIterative. rewrite postorderIterative_loop_run.
  - rewrite drain_id. simpl flat_map.
    now rewrite !app_nil_r, rev_involutive.
  - constructor; [unfold present; discriminate | constructor].
  - unfold stack_nodes. simpl in *. lia.
Qed.

(** [inorderIterative] on the empty tree: the loop test fails at once. *)
Lemma inorderIterative_empty fuel : inorderIterative fuel Leaf = Done [].
Proof. destruct fuel; reflexivity. Qed.

(** On a present root the first run of the body takes the [else] branch and
    reads the top of the stack, which is empty: the loop never completes. *)
Lemma inorderIterative_never_done fuel l v r out :
  inorderIterative fuel (Node l v r) <> Done out.
Proof. destruct fuel; discriminate. Qed.

(** ** Structural equality *)

Lemma isIdentical_bit x y : isIdentical x y = 0 \/ isIdentical x y = 1.
Proof.
  revert y. induction x as [|xl IHl xv xr IHr]; intros [|yl yv yr]; simpl; auto.
  destruct (_ && _ && _); simpl; auto.
Qed.

Lemma nonzero_bit_iff a (P : Prop) :
  (a = 0 \/ a = 1) -> (a = 1 <-> P) -> (negb (a =? 0) = true <-> P).
Proof.
  intros [E|E] HP; rewrite E; simpl; rewrite <- HP; rewrite E;
    split; congruence.
Qed.

Theorem isIdentical_iff x y : isIdentical x y = 1 <-> x = y.
Proof.
  revert y. induction x as [|xl IHl xv xr IHr]; intros [|yl yv yr]; simpl;
    try (split; [discriminate | congruence]); [tauto|].
  pose proof (nonzero_bit_iff _ _ (isIdentical_bit xl yl) (IHl yl)) as Hl.
  pose proof (nonzero_bit_iff _ _ (isIdentical_bit xr yr) (IHr yr)) as Hr.
  split.
  - intros H.
    destruct (Z.eqb_spec xv yv) as [Hv|Hv];
      destruct (negb (isIdentical xl yl =? 0));
      destruct (negb (isIdentical xr yr =? 0)); simpl in H; try discriminate.
    f_equal; tauto.
  - intros H. inversion H; subst.
    rewrite Z.eqb_refl, (proj2 Hl eq_refl), (proj2 Hr eq_refl). reflexivity.
Qed.

Corollary isIdentical_refl t : isIdentical t t = 1.
Proof. now apply isIdentical_iff. Qed.

(** ** Postorder sum transform *)

Lemma int_add_wrap a b : int_add (int_wrap a) (int_wrap b) = int_wrap (a + b).
Proof. unfold int_add. now rewrite int_wrap_add_l, int_wrap_add_r. Qed.

(** The call returns the sum of the values it found and leaves [sum_tree]. *)
Lemma sumPostorder_eq t : sumPostorder t = (int_sum t, sum_tree t).
Proof.
  induction t as [|l IHl v r IHr]; [reflexivity|].
  simpl. rewrite IHl, IHr. unfold int_sum. rewrite int_add_wrap.
  apply (f_equal2 pair); [|reflexivity].
  unfold int_add. rewrite int_wrap_add_l. apply f_equal. simpl. lia.
Qed.

Lemma depth_sum_shift t k : depth_sum t k = depth_sum t 0 + k * tree_sum t.
Proof.
  revert k. induction t as [|l IHl v r IHr]; intros k; simpl; [lia|].
  rewrite (IHl (k + 1)), (IHr (k + 1)), (IHl (0 + 1)), (IHr (0 + 1)). lia.
Qed.

Lemma int_wrap_congr_l a a' b :
  int_wrap a = int_wrap a' -> int_wrap (a + b) = int_wrap (a' + b).
Proof.
  intros H. rewrite <- (int_wrap_add_l a), <- (int_wrap_add_l a'). now rewrite H.
Qed.

(** The values of [sum_tree t] add up to the depth-weighted sum of [t]. *)
Lemma int_sum_sum_tree t : int_sum (sum_tree t) = int_wrap (depth_sum t 0).
Proof.
  unfold int_sum. induction t as [|l IHl v r IHr]; [reflexivity|].
  simpl. rewrite (depth_sum_shift l), (depth_sum_shift r).
  set (sl := tree_sum l) in *. set (sr := tree_sum r) in *.
  set (tl := tree_sum (sum_tree l)) in *. set (tr := tree_sum (sum_tree r)) in *.
  replace (tl + int_wrap (sl + sr) + tr) with (int_wrap (sl + sr) + (tl + tr)) by lia.
  rewrite int_wrap_add_l.
  replace (sl + sr + (tl + tr)) with (tl + (sl + sr + tr)) by lia.
  rewrite (int_wrap_congr_l _ _ _ IHl).
  replace (depth_sum l 0 + (sl + sr + tr)) with (tr + (sl + sr + depth_sum l 0)) by lia.
  rewrite (int_wrap_congr_l _ _ _ IHr). apply f_equal. lia.
Qed.

Lemma sum_tree_leaf_node v : sum_tree (leaf_node v) = leaf_node 0.
Proof. reflexivity. Qed.

(** ** The ordered map *)

Lemma map_find_assign m k p k' :
  map_find (map_assign m k p) k' = if k' =? k then Some p else map_find m k'.
Proof.
  induction m as [|[k0 p0] m IH]; simpl.
  - reflexivity.
  - destruct (Z.ltb_spec k k0); simpl.
    + reflexivity.
    + destruct (Z.eqb_spec k k0) as [->|Hne]; simpl.
      * destruct (Z.eqb_spec k' k0); reflexivity.
      * rewrite IH.
        destruct (Z.eqb_spec k' k0), (Z.eqb_spec k' k); try reflexivity; lia.
Qed.

Lemma keys_assign m k p x :
  In x (keys (map_assign m k p)) <-> x = k \/ In x (keys m).
Proof.
  induction m as [|[k0 p0] m IH]; simpl.
  - intuition.
  - destruct (Z.ltb_spec k k0); simpl; [intuition|].
    destruct (Z.eqb_spec k k0) as [->|Hne]; simpl; [intuition|].
    unfold keys in IH. rewrite IH. intuition.
Qed.

Lemma map_assign_sorted m k p :
  StronglySorted Z.lt (keys m) -> StronglySorted Z.lt (keys (map_assign m k p)).
Proof.
  induction m as [|[k0 p0] m IH]; simpl; intros Hs.
  - repeat constructor.
  - apply StronglySorted_inv in Hs as [Hs Hall]. fold (keys m) in *.
    destruct (Z.ltb_spec k k0); simpl.
    + constructor; [constructor; assumption|].
      constructor; [assumption|].
      eapply List.Forall_impl; [|exact Hall]. simpl. intros; lia.
    + destruct (Z.eqb_spec k k0) as [->|Hne]; simpl.
      * constructor; assumption.
      * constructor; [now apply IH|].
        apply List.Forall_forall. intros x Hx.
        apply keys_assign in Hx as [->|Hx]; [lia|].
        rewrite List.Forall_forall in Hall. now apply Hall.
Qed.

Lemma map_find_None m k : map_find m k = None <-> ~ In k (keys m).
Proof.
  induction m as [|[k0 p0] m IH]; simpl; [intuition|].
  destruct (Z.eqb_spec k k0) as [->|Hne].
  - split; [discriminate | intros H; exfalso; apply H; now left].
  - rewrite IH. fold (keys m). intuition.
Qed.

Lemma map_find_In m k p : map_find m k = Some p -> In (k, p) m.
Proof.
  induction m as [|[k0 p0] m IH]; simpl; [discriminate|].
  destruct (Z.eqb_spec k k0) as [->|Hne]; [intros [= ->]; now left|].
  intros H. right. now apply IH.
Qed.

Lemma In_map_find m k p :
  StronglySorted Z.lt (keys m) -> In (k, p) m -> map_find m k = Some p.
Proof.
  induction m as [|[k0 p0] m IH]; simpl; intros Hs Hin; [contradiction|].
  apply StronglySorted_inv in Hs as [Hs Hall]. fold (keys m) in *.
  destruct Hin as [[= -> ->]|Hin].
  - now rewrite Z.eqb_refl.
  - destruct (Z.eqb_spec k k0) as [->|Hne]; [|now apply IH].
    rewrite List.Forall_forall in Hall.
    assert (k0 < k0); [|lia].
    apply Hall. unfold keys. apply in_map_iff. now exists (k0, p).
Qed.

(** ** Horizontal views *)

(** What one visit of [printBottom] does to the entry of each distance. *)
Lemma printBottom_visit_find m dist level v d :
  map_find (printBottom_visit m dist level v) d
  = if d =? dist then
      match map_find m dist with
      | Some p => Some (if level >=? snd p then (v, level) else p)
      | None => Some (if level >=? 0 then (v, level) else (0, 0))
      end
    else map_find m d.
Proof.
  unfold printBottom_visit, map_index.
  destruct (map_find m dist) as [p|] eqn:Hf; simpl.
  - destruct (level >=? snd p).
    + rewrite map_find_assign. destruct (Z.eqb_spec d dist); reflexivity.
    + destruct (Z.eqb_spec d dist) as [->|]; [exact Hf | reflexivity].
  - destruct (level >=? 0).
    + rewrite !map_find_assign. destruct (Z.eqb_spec d dist); reflexivity.
    + rewrite map_find_assign. destruct (Z.eqb_spec d dist); reflexivity.
Qed.

Lemma printBottom_visit_keys m dist level v x :
  In x (keys (printBottom_visit m dist level v)) <-> x = dist \/ In x (keys m).
Proof.
  unfold printBottom_visit, map_index.
  destruct (map_find m dist) as [p|] eqn:Hf; simpl.
  - assert (In dist (keys m)) as Hin.
    { apply map_find_In in Hf. unfold keys. apply in_map_iff. now exists (dist, p). }
    destruct (level >=? snd p).
    + rewrite keys_assign. tauto.
    + split; [tauto | intros [->|]; assumption].
  - destruct (level >=? 0); rewrite ?keys_assign; tauto.
Qed.

Lemma printBottom_visit_sorted m dist level v :
  StronglySorted Z.lt (keys m) ->
  StronglySorted Z.lt (keys (printBottom_visit m dist level v)).
Proof.
  intros Hs. unfold printBottom_visit, map_index.
  destruct (map_find m dist) as [p|]; simpl.
  - destruct (level >=? snd p); [now apply map_assign_sorted | assumption].
  - destruct (level >=? 0); repeat apply map_assign_sorted; assumption.
Qed.

(** What one visit of [printTop] does to the entry of each distance. *)
Lemma printTop_visit_find m dist level v d :
  map_find (printTop_visit m dist level v) d
  = if d =? dist then
      match map_find m dist with
      | Some p => Some (if level <? snd p then (v, level) else p)
      | None => Some (v, level)
      end
    else map_find m d.
Proof.
  unfold printTop_visit.
  destruct (map_find m dist) as [p|] eqn:Hf; simpl.
  - destruct (level <? snd p).
    + rewrite map_find_assign. destruct (Z.eqb_spec d dist); reflexivity.
    + destruct (Z.eqb_spec d dist) as [->|]; [exact Hf | reflexivity].
  - rewrite map_find_assign. destruct (Z.eqb_spec d dist); reflexivity.
Qed.

Lemma printTop_visit_keys m dist level v x :
  In x (keys (printTop_visit m dist level v)) <-> x = dist \/ In x (keys m).
Proof.
  unfold printTop_visit.
  destruct (map_find m dist) as [p|] eqn:Hf; simpl.
  - assert (In dist (keys m)) as Hin.
    { apply map_find_In in Hf. unfold keys. apply in_map_iff. now exists (dist, p). }
    destruct (level <? snd p).
    + rewrite keys_assign. tauto.
    + split; [tauto | intros [->|]; assumption].
  - rewrite keys_assign. tauto.
Qed.

Lemma printTop_visit_sorted m dist level v :
  StronglySorted Z.lt (keys m) ->
  StronglySorted Z.lt (keys (printTop_visit m dist level v)).
Proof.
  intros Hs. unfold printTop_visit.
  destruct (map_find m dist) as [p|]; simpl.
  - destruct (level <? snd p); [now apply map_assign_sorted | assumption].
  - now apply map_assign_sorted.
Qed.

Lemma tree_height_nonneg t : 0 <= tree_height t.
Proof. induction t; simpl; lia. Qed.

Lemma present_height t : present t -> 1 <= tree_height t.
Proof.
  destruct t as [|l v r]; [intros H; now elim H|].
  intros _. simpl. pose proof (tree_height_nonneg l). lia.
Qed.

(** Below a node that fits, the wrapped coordinates of a present child are
    the exact ones, and the child fits. *)
Lemma fits_left l v r dist level :
  fits (Node l v r) dist level ->
  fits l (dist - 1) (level + 1) /\
  (present l -> int_sub dist 1 = dist - 1 /\ int_add level 1 = level + 1).
Proof.
  intros Hf. destruct Hf as (H1 & H2 & H3 & H4); [unfold present; discriminate|].
  simpl in *. unfold in_range, min_int, max_int in *.
  split.
  - intros Hl. apply present_height in Hl. unfold min_int, max_int. lia.
  - intros Hl. apply present_height in Hl.
    unfold int_sub, int_add.
    split; apply int_wrap_small; unfold in_range, min_int, max_int; lia.
Qed.

Lemma fits_right l v r dist level :
  fits (Node l v r) dist level ->
  fits r (dist + 1) (level + 1) /\
  (present r -> int_add dist 1 = dist + 1 /\ int_add level 1 = level + 1).
Proof.
  intros Hf. destruct Hf as (H1 & H2 & H3 & H4); [unfold present; discriminate|].
  simpl in *. unfold in_range, min_int, max_int in *.
  split.
  - intros Hr. apply present_height in Hr. unfold min_int, max_int. lia.
  - intros Hr. apply present_height in Hr.
    unfold int_add.
    split; apply int_wrap_small; unfold in_range, min_int, max_int; lia.
Qed.

Lemma fits_root t : tree_height t <= 2 ^ 31 -> fits t 0 0.
Proof. intros H _. unfold min_int, max_int. lia. Qed.

Lemma printBottom_fill_args t d l d' l' m :
  (present t -> d' = d /\ l' = l) ->
  printBottom_fill t d' l' m = printBottom_fill t d l m.
Proof.
  destruct t; [reflexivity|].
  intros H. destruct H as [-> ->]; [unfold present; discriminate | reflexivity].
Qed.

Lemma printTop_fill_args t d l d' l' m :
  (present t -> d' = d /\ l' = l) ->
  printTop_fill t d' l' m = printTop_fill t d l m.
Proof.
  destruct t; [reflexivity|].
  intros H. destruct H as [-> ->]; [unfold present; discriminate | reflexivity].
Qed.

(** The recursion of [printBottom] visits the placed nodes in preorder. *)
Lemma printBottom_fill_fold t :
  forall dist level m,
    fits t dist level ->
    printBottom_fill t dist level m
    = fold_left bottom_step (coords t dist level) m.
Proof.
  induction t as [|l IHl v r IHr]; intros dist level m Hf; [reflexivity|].
  destruct (fits_left _ _ _ _ _ Hf) as [Hfl Hal].
  destruct (fits_right _ _ _ _ _ Hf) as [Hfr Har].
  simpl. rewrite fold_left_app.
  rewrite (printBottom_fill_args l _ _ _ _ _ Hal), (IHl _ _ _ Hfl).
  rewrite (printBottom_fill_args r _ _ _ _ _ Har), (IHr _ _ _ Hfr).
  reflexivity.
Qed.

Lemma printTop_fill_fold t :
  forall dist level m,
    fits t dist level ->
    printTop_fill t dist level m
    = fold_left top_step (coords t dist level) m.
Proof.
  induction t as [|l IHl v r IHr]; intros dist level m Hf; [reflexivity|].
  destruct (fits_left _ _ _ _ _ Hf) as [Hfl Hal].
  destruct (fits_right _ _ _ _ _ Hf) as [Hfr Har].
  simpl. rewrite fold_left_app.
  rewrite (printTop_fill_args l _ _ _ _ _ Hal), (IHl _ _ _ Hfl).
  rewrite (printTop_fill_args r _ _ _ _ _ Har), (IHr _ _ _ Hfr).
  reflexivity.
Qed.

Lemma coords_level_ge t :
  forall dist level, List.Forall (fun c => level <= p_level c) (coords t dist level).
Proof.
  induction t as [|l IHl v r IHr]; intros dist level; simpl; [constructor|].
  constructor; [simpl; lia|].
  apply List.Forall_app. split.
  - eapply List.Forall_impl; [|apply IHl]. simpl. intros; lia.
  - eapply List.Forall_impl; [|apply IHr]. simpl. intros; lia.
Qed.

(** *** Bottom and top nodes under one more visit *)

Lemma is_bottom_of_bound e cs c :
  is_bottom_of e cs -> In c cs -> p_dist c = p_dist e -> p_level c <= p_level e.
Proof.
  intros (pre & post & -> & Hpre & Hpost) Hin Hd.
  apply in_app_or in Hin as [Hin|[<-|Hin]].
  - now apply Hpre.
  - lia.
  - specialize (Hpost _ Hin Hd). lia.
Qed.

Lemma is_bottom_of_snoc e cs c :
  is_bottom_of e cs ->
  (p_dist c = p_dist e -> p_level c < p_level e) ->
  is_bottom_of e (cs ++ [c]).
Proof.
  intros (pre & post & -> & Hpre & Hpost) Hc.
  exists pre, (post ++ [c]). split; [now rewrite <- app_assoc|].
  split; [exact Hpre|].
  intros c' Hin Hd. apply in_app_or in Hin as [Hin|[<-|[]]]; auto.
Qed.

Lemma is_bottom_of_last c cs :
  (forall c', In c' cs -> p_dist c' = p_dist c -> p_level c' <= p_level c) ->
  is_bottom_of c (cs ++ [c]).
Proof.
  intros H. exists cs, []. split; [reflexivity|]. split; [exact H|].
  intros c' [].
Qed.

Lemma is_top_of_bound e cs c :
  is_top_of e cs -> In c cs -> p_dist c = p_dist e -> p_level e <= p_level c.
Proof.
  intros (pre & post & -> & Hpre & Hpost) Hin Hd.
  apply in_app_or in Hin as [Hin|[<-|Hin]].
  - specialize (Hpre _ Hin Hd). lia.
  - lia.
  - now apply Hpost.
Qed.

Lemma is_top_of_snoc e cs c :
  is_top_of e cs ->
  (p_dist c = p_dist e -> p_level e <= p_level c) ->
  is_top_of e (cs ++ [c]).
Proof.
  intros (pre & post & -> & Hpre & Hpost) Hc.
  exists pre, (post ++ [c]). split; [now rewrite <- app_assoc|].
  split; [exact Hpre|].
  intros c' Hin Hd. apply in_app_or in Hin as [Hin|[<-|[]]]; auto.
Qed.

Lemma is_top_of_last c cs :
  (forall c', In c' cs -> p_dist c' = p_dist c -> p_level c < p_level c') ->
  is_top_of c (cs ++ [c]).
Proof.
  intros H. exists cs, []. split; [reflexivity|]. split; [exact H|].
  intros c' [].
Qed.

(** *** The map after a run of visits *)

Lemma bottom_fold_inv cs :
  List.Forall (fun c => 0 <= p_level c) cs ->
  StronglySorted Z.lt (keys (fold_left bottom_step cs [])) /\
  (forall d, In d (keys (fold_left bottom_step cs [])) <-> In d (List.map p_dist cs)) /\
  (forall d p, map_find (fold_left bottom_step cs []) d = Some p ->
               is_bottom_of (mk_placed d (snd p) (fst p)) cs).
Proof.
  induction cs as [|c cs IH] using rev_ind; intros Hall.
  - simpl. split; [constructor|]. split; [tauto | discriminate].
  - apply List.Forall_app in Hall as [Hall Hc].
    apply List.Forall_cons_iff in Hc as [Hc _].
    destruct (IH Hall) as (Hs & Hk & Hb). clear IH.
    rewrite fold_left_app. simpl.
    set (m := fold_left bottom_step cs []) in *.
    unfold bottom_step at 1 2 3.
    split; [now apply printBottom_visit_sorted|].
    split.
    + intros d. rewrite printBottom_visit_keys, Hk, List.map_app, in_app_iff.
      simpl. intuition.
    + intros d p. rewrite printBottom_visit_find.
      destruct (Z.eqb_spec d (p_dist c)) as [->|Hne].
      * destruct (map_find m (p_dist c)) as [p0|] eqn:Hf.
        -- specialize (Hb _ _ Hf).
           destruct (Z.geb_spec (p_level c) (snd p0)); intros [= <-].
           ++ simpl. destruct c as [cd cl cv]. simpl in *.
              apply is_bottom_of_last. simpl. intros c' Hin Hd.
              pose proof (is_bottom_of_bound _ _ _ Hb Hin Hd). simpl in *. lia.
           ++ apply is_bottom_of_snoc; [exact Hb|]. simpl. lia.
        -- apply map_find_None in Hf. rewrite Hk in Hf.
           destruct (Z.geb_spec (p_level c) 0); [|lia]. intros [= <-].
           simpl. destruct c as [cd cl cv]. simpl in *.
           apply is_bottom_of_last. simpl. intros c' Hin Hd. exfalso.
           apply Hf. apply in_map_iff. now exists c'.
      * intros Hf. apply is_bottom_of_snoc; [now apply Hb|].
        simpl. intros; congruence.
Qed.

Lemma top_fold_inv cs :
  StronglySorted Z.lt (keys (fold_left top_step cs [])) /\
  (forall d, In d (keys (fold_left top_step cs [])) <-> In d (List.map p_dist cs)) /\
  (forall d p, map_find (fold_left top_step cs []) d = Some p ->
               is_top_of (mk_placed d (snd p) (fst p)) cs).
Proof.
  induction cs as [|c cs IH] using rev_ind.
  - simpl. split; [constructor|]. split; [tauto | discriminate].
  - destruct IH as (Hs & Hk & Hb).
    rewrite fold_left_app. simpl.
    set (m := fold_left top_step cs []) in *.
    unfold top_step at 1 2 3.
    split; [now apply printTop_visit_sorted|].
    split.
    + intros d. rewrite printTop_visit_keys, Hk, List.map_app, in_app_iff.
      simpl. intuition.
    + intros d p. rewrite printTop_visit_find.
      destruct (Z.eqb_spec d (p_dist c)) as [->|Hne].
      * destruct (map_find m (p_dist c)) as [p0|] eqn:Hf.
        -- specialize (Hb _ _ Hf).
           destruct (Z.ltb_spec (p_level c) (snd p0)); intros [= <-].
           ++ simpl. destruct c as [cd cl cv]. simpl in *.
              apply is_top_of_last. simpl. intros c' Hin Hd.
              pose proof (is_top_of_bound _ _ _ Hb Hin Hd). simpl in *. lia.
           ++ apply is_top_of_snoc; [exact Hb|]. simpl. lia.
        -- apply map_find_None in Hf. rewrite Hk in Hf.
           intros [= <-].
           simpl. destruct c as [cd cl cv]. simpl in *.
           apply is_top_of_last. simpl. intros c' Hin Hd. exfalso.
           apply Hf. apply in_map_iff. now exists c'.
      * intros Hf. apply is_top_of_snoc; [now apply Hb|].
        simpl. intros; congruence.
Qed.

(** ** Store model: which computations write to the nodes *)

Module HeapFacts.
Import Heap.
Local Open Scope heap_scope.

Lemma readonly_ret {A} (a : A) : readonly (ret a).
Proof. intros s. reflexivity. Qed.

Lemma readonly_fail {A} f : readonly (@fail A f).
Proof. intros s. reflexivity. Qed.

Lemma readonly_out_of_fuel {A} : readonly (@out_of_fuel A).
Proof. intros s. reflexivity. Qed.

Lemma readonly_bind {A B} (c : M A) (k : A -> M B) :
  readonly c -> (forall a, readonly (k a)) -> readonly (bind c k).
Proof.
  intros Hc Hk s. unfold bind. specialize (Hc s).
  destruct (c s) as [[a|f|] s']; simpl in *; try assumption.
  rewrite Hk. assumption.
Qed.

Lemma readonly_deref p : readonly (deref p).
Proof.
  intros s. unfold deref. destruct p as [a|]; [|reflexivity].
  destruct (mem s !! a); reflexivity.
Qed.

Lemma readonly_get_data p : readonly (get_data p).
Proof. apply readonly_bind; [apply readonly_deref | intros; apply readonly_ret]. Qed.

Lemma readonly_get_left p : readonly (get_left p).
Proof. apply readonly_bind; [apply readonly_deref | intros; apply readonly_ret]. Qed.

Lemma readonly_get_right p : readonly (get_right p).
Proof. apply readonly_bind; [apply readonly_deref | intros; apply readonly_ret]. Qed.

Lemma readonly_print v : readonly (print v).
Proof. intros s. reflexivity. Qed.

Create HintDb readonly.
#[local] Hint Resolve readonly_ret readonly_fail readonly_out_of_fuel
  readonly_get_data readonly_get_left readonly_get_right readonly_print
  : readonly.

(** Breaks a computation down to its reads, prints and recursive calls. *)
Ltac readonly_steps :=
  repeat first
    [ solve [auto with readonly]
    | apply readonly_bind; [|intros]
    | match goal with
      | |- readonly (if ?b then _ else _) => destruct b
      | |- readonly (match ?x with _ => _ end) => destruct x
      end ].

Lemma readonly_print_stack out : readonly (print_stack out).
Proof. induction out; simpl; readonly_steps. Qed.
#[local] Hint Resolve readonly_print_stack : readonly.

Lemma readonly_inorderRecursive fuel : forall p, readonly (inorderRecursive fuel p).
Proof. induction fuel as [|fuel IH]; intros p; simpl; readonly_steps. Qed.
#[local] Hint Resolve readonly_inorderRecursive : readonly.

Lemma readonly_inorderIterative_loop fuel :
  forall stack curr, readonly (inorderIterative_loop fuel stack curr).
Proof.
  induction fuel as [|fuel IH]; intros stack curr;
    destruct stack, curr; simpl; readonly_steps.
Qed.

Lemma readonly_preorderRecursive fuel : forall p, readonly (preorderRecursive fuel p).
Proof. induction fuel as [|fuel IH]; intros p; simpl; readonly_steps. Qed.

Lemma readonly_preorderIterative_loop fuel :
  forall stack, readonly (preorderIterative_loop fuel stack).
Proof.
  induction fuel as [|fuel IH]; intros stack; destruct stack; simpl;
    readonly_steps.
Qed.

Lemma readonly_postorderIterative_loop fuel :
  forall stack out, readonly (postorderIterative_loop fuel stack out).
Proof.
  induction fuel as [|fuel IH]; intros stack out; destruct stack; simpl;
    readonly_steps.
Qed.

Lemma readonly_isIdentical fuel : forall x y, readonly (isIdentical fuel x y).
Proof. induction fuel as [|fuel IH]; intros x y; simpl; readonly_steps. Qed.

Lemma readonly_printBottom_fill fuel :
  forall p dist level map, readonly (printBottom_fill fuel p dist level map).
Proof.
  induction fuel as [|fuel IH]; intros p dist level map; simpl; readonly_steps.
Qed.

Lemma readonly_printTop_fill fuel :
  forall p dist level map, readonly (printTop_fill fuel p dist level map).
Proof.
  induction fuel as [|fuel IH]; intros p dist level map; simpl; readonly_steps.
Qed.

End HeapFacts.

(** ** Store model: agreement with the tree model *)

Lemma bind_done {A B} (c : Heap.M A) (k : A -> Heap.M B) s a s' :
  c s = (Done a, s') -> Heap.bind c k s = k a s'.
Proof. intros H. unfold Heap.bind. now rewrite H. Qed.

Lemma bind_fault {A B} (c : Heap.M A) (k : A -> Heap.M B) s f s' :
  c s = (Fault f, s') -> Heap.bind c k s = (Fault f, s').
Proof. intros H. unfold Heap.bind. now rewrite H. Qed.

Lemma bind_out_of_fuel {A B} (c : Heap.M A) (k : A -> Heap.M B) s s' :
  c s = (OutOfFuel, s') -> Heap.bind c k s = (OutOfFuel, s').
Proof. intros H. unfold Heap.bind. now rewrite H. Qed.

Lemma get_data_ok h out a n :
  h !! a = Some n ->
  Heap.get_data (Some a) (Heap.mk_state h out) = (Done (Heap.data n), Heap.mk_state h out).
Proof. intros H. unfold Heap.get_data, Heap.bind, Heap.deref. simpl. now rewrite H. Qed.

Lemma get_left_ok h out a n :
  h !! a = Some n ->
  Heap.get_left (Some a) (Heap.mk_state h out) = (Done (Heap.left n), Heap.mk_state h out).
Proof. intros H. unfold Heap.get_left, Heap.bind, Heap.deref. simpl. now rewrite H. Qed.

Lemma get_right_ok h out a n :
  h !! a = Some n ->
  Heap.get_right (Some a) (Heap.mk_state h out) = (Done (Heap.right n), Heap.mk_state h out).
Proof. intros H. unfold Heap.get_right, Heap.bind, Heap.deref. simpl. now rewrite H. Qed.

Lemma print_ok h out v :
  Heap.print v (Heap.mk_state h out) = (Done tt, Heap.mk_state h (out ++ [v])).
Proof. reflexivity. Qed.

Lemma print_stack_ok h vs : forall out,
  Heap.print_stack vs (Heap.mk_state h out) = (Done tt, Heap.mk_state h (out ++ vs)).
Proof.
  induction vs as [|v vs IH]; intros out; simpl.
  - now rewrite app_nil_r.
  - erewrite bind_done by apply print_ok. rewrite IH. now rewrite <- app_assoc.
Qed.

Lemma repr_null_inv h t : Heap.repr h None t -> t = Leaf.
Proof. now inversion 1. Qed.

Lemma repr_node_inv h a t :
  Heap.repr h (Some a) t ->
  exists n l r,
    t = Node l (Heap.data n) r /\ h !! a = Some n /\
    Heap.repr h (Heap.left n) l /\ Heap.repr h (Heap.right n) r.
Proof. inversion 1; subst. eauto 8. Qed.

(** Reads of a node that the store holds, one after the other. *)
Ltac heap_read H :=
  first [ erewrite bind_done by (apply (get_left_ok _ _ _ _ H))
        | erewrite bind_done by (apply (get_right_ok _ _ _ _ H))
        | erewrite bind_done by (apply (get_data_ok _ _ _ _ H))
        | erewrite bind_done by (apply print_ok) ];
  cbv beta.

Lemma inorderRecursive_repr h p t :
  Heap.repr h p t ->
  forall fuel out,
    tree_height t < Z.of_nat fuel ->
    Heap.inorderRecursive fuel p (Heap.mk_state h out)
    = (Done tt, Heap.mk_state h (out ++ inorderRecursive t)).
Proof.
  induction 1 as [|a n l r Ha Hl IHl Hr IHr]; intros fuel out Hf.
  - destruct fuel as [|fuel]; [simpl in Hf; lia|].
    simpl. now rewrite app_nil_r.
  - pose proof (tree_height_nonneg l). pose proof (tree_height_nonneg r).
    destruct fuel as [|fuel]; [simpl in Hf; lia|].
    simpl in Hf. simpl Heap.inorderRecursive.
    heap_read Ha. erewrite bind_done by (apply IHl; lia). cbv beta.
    heap_read Ha. heap_read Ha. heap_read Ha.
    rewrite IHr by lia. simpl. now rewrite <- !app_assoc.
Qed.

Lemma preorderRecursive_repr h p t :
  Heap.repr h p t ->
  forall fuel out,
    tree_height t < Z.of_nat fuel ->
    Heap.preorderRecursive fuel p (Heap.mk_state h out)
    = (Done tt, Heap.mk_state h (out ++ preorderRecursive t)).
Proof.
  induction 1 as [|a n l r Ha Hl IHl Hr IHr]; intros fuel out Hf.
  - destruct fuel as [|fuel]; [simpl in Hf; lia|].
    simpl. now rewrite app_nil_r.
  - pose proof (tree_height_nonneg l). pose proof (tree_height_nonneg r).
    destruct fuel as [|fuel]; [simpl in Hf; lia|].
    simpl in Hf. simpl Heap.preorderRecursive.
    heap_read Ha. heap_read Ha. heap_read Ha.
    erewrite bind_done by (apply IHl; lia). cbv beta.
    heap_read Ha.
    rewrite IHr by lia. simpl. now rewrite <- !app_assoc.
Qed.

Lemma postorderRecursive_repr h p t fuel out :
  Heap.repr h p t ->
  tree_height t <= Z.of_nat fuel ->
  Heap.postorderRecursive fuel p (Heap.mk_state h out)
  = (Done tt, Heap.mk_state h (out ++ postorderRecursive t)).
Proof.
  intros Hr Hf. destruct Hr as [|a n l r Ha Hl Hr].
  - simpl. now rewrite app_nil_r.
  - simpl in Hf. unfold Heap.postorderRecursive.
    heap_read Ha.
    erewrite bind_done by (apply (inorderRecursive_repr _ _ _ Hl); lia). cbv beta.
    heap_read Ha.
    erewrite bind_done by (apply (inorderRecursive_repr _ _ _ Hr); lia). cbv beta.
    heap_read Ha. rewrite print_ok. simpl. now rewrite <- !app_assoc.
Qed.

Lemma push_present_repr h p t ps ts :
  Heap.repr h p t ->
  Forall2 (Heap.repr h) ps ts ->
  Forall2 (Heap.repr h) (Heap.push_present p ps) (push_present t ts).
Proof.
  intros Hp Hs. destruct Hp; simpl; [assumption|].
  constructor; [econstructor; eassumption | assumption].
Qed.

(** The loops of the store model take the same steps as those of the tree
    model, with the same budget. *)
Lemma preorderIterative_loop_repr h fuel :
  forall ps ts out,
    Forall2 (Heap.repr h) ps ts ->
    Heap.agrees h (preorderIterative_loop fuel ts out)
      (Heap.preorderIterative_loop fuel ps (Heap.mk_state h out)).
Proof.
  induction fuel as [|fuel IH]; intros ps ts out Hs;
    destruct Hs as [|p t ps ts Hp Hs]; simpl; try reflexivity;
    try (eexists; reflexivity).
  destruct Hp as [|a n l r Ha Hl Hr]; simpl; [eexists; reflexivity|].
  heap_read Ha. heap_read Ha. heap_read Ha. heap_read Ha.
  apply IH. repeat (apply push_present_repr; [assumption|]). assumption.
Qed.

Lemma preorderIterative_repr h p t fuel :
  Heap.repr h p t ->
  Heap.agrees h (preorderIterative fuel t)
    (Heap.preorderIterative fuel p (Heap.mk_state h [])).
Proof.
  intros Hp. destruct Hp as [|a n l r Ha Hl Hr]; [reflexivity|].
  apply (preorderIterative_loop_repr h fuel [Some a] [Node l (Heap.data n) r] []).
  constructor; [econstructor; eassumption | constructor].
Qed.

Lemma postorderIterative_loop_repr h fuel :
  forall ps ts out cout,
    Forall2 (Heap.repr h) ps ts ->
    match postorderIterative_loop fuel ts out with
    | Done out' =>
      Heap.postorderIterative_loop fuel ps out (Heap.mk_state h cout)
      = (Done out', Heap.mk_state h cout)
    | Fault f =>
      Heap.postorderIterative_loop fuel ps out (Heap.mk_state h cout)
      = (Fault f, Heap.mk_state h cout)
    | OutOfFuel =>
      Heap.postorderIterative_loop fuel ps out (Heap.mk_state h cout)
      = (OutOfFuel, Heap.mk_state h cout)
    end.
Proof.
  induction fuel as [|fuel IH]; intros ps ts out cout Hs;
    destruct Hs as [|p t ps ts Hp Hs]; simpl; try reflexivity.
  destruct Hp as [|a n l r Ha Hl Hr]; simpl; [reflexivity|].
  heap_read Ha. heap_read Ha. heap_read Ha.
  apply IH. repeat (apply push_present_repr; [assumption|]). assumption.
Qed.

Lemma postorderIterative_repr h p t fuel :
  Heap.repr h p t ->
  Heap.agrees h (postorderIterative fuel t)
    (Heap.postorderIterative fuel p (Heap.mk_state h [])).
Proof.
  intros Hp. destruct Hp as [|a n l r Ha Hl Hr]; [reflexivity|].
  unfold postorderIterative, Heap.postorderIterative.
  assert (Forall2 (Heap.repr h) [Some a] [Node l (Heap.data n) r]) as Hs
    by (constructor; [econstructor; eassumption | constructor]).
  pose proof (postorderIterative_loop_repr h fuel _ _ [] [] Hs) as Hloop.
  destruct (postorderIterative_loop fuel [Node l (Heap.data n) r] []) as [out|f|];
    unfold Heap.agrees.
  - erewrite bind_done by exact Hloop.
    rewrite print_stack_ok, drain_id. reflexivity.
  - exists []. apply bind_fault. exact Hloop.
  - exists []. apply bind_out_of_fuel. exact Hloop.
Qed.

Lemma inorderIterative_loop_repr h fuel :
  forall ps ts p t out,
    Forall2 (Heap.repr h) ps ts ->
    Heap.repr h p t ->
    Heap.agrees h (inorderIterative_loop fuel ts t out)
      (Heap.inorderIterative_loop fuel ps p (Heap.mk_state h out)).
Proof.
  induction fuel as [|fuel IH]; intros ps ts p t out Hs Hp;
    destruct Hs as [|q u ps ts Hq Hs]; destruct Hp as [|a n l r Ha Hl Hr];
    simpl; try reflexivity; try (eexists; reflexivity).
  destruct Hq as [|b nb lb rb Hb Hlb Hrb]; simpl; [eexists; reflexivity|].
  heap_read Hb. heap_read Hb. heap_read Hb.
  now apply IH.
Qed.

Lemma inorderIterative_repr h p t fuel :
  Heap.repr h p t ->
  Heap.agrees h (inorderIterative fuel t)
    (Heap.inorderIterative fuel p (Heap.mk_state h [])).
Proof. intros Hp. apply inorderIterative_loop_repr; [constructor | assumption]. Qed.

Lemma isIdentical_repr h x tx :
  Heap.repr h x tx ->
  forall y ty fuel out,
    Heap.repr h y ty ->
    tree_height tx < Z.of_nat fuel ->
    Heap.isIdentical fuel x y (Heap.mk_state h out)
    = (Done (isIdentical tx ty), Heap.mk_state h out).
Proof.
  induction 1 as [|a n l r Ha Hl IHl Hr IHr]; intros y ty fuel out Hy Hf.
  - destruct fuel as [|fuel]; [simpl in Hf; lia|].
    destruct Hy; reflexivity.
  - pose proof (tree_height_nonneg l). pose proof (tree_height_nonneg r).
    destruct fuel as [|fuel]; [simpl in Hf; lia|].
    destruct Hy as [|b nb lb rb Hb Hlb Hrb]; [reflexivity|].
    simpl in Hf. simpl Heap.isIdentical. simpl isIdentical.
    heap_read Ha. heap_read Hb.
    destruct (Heap.data n =? Heap.data nb); [|reflexivity].
    heap_read Ha. heap_read Hb.
    erewrite bind_done by (apply IHl; [eassumption | lia]). cbv beta.
    destruct (isIdentical l lb =? 0); [reflexivity|].
    heap_read Ha. heap_read Hb.
    erewrite bind_done by (apply IHr; [eassumption | lia]). cbv beta.
    reflexivity.
Qed.

Lemma printBottom_fill_repr h p t :
  Heap.repr h p t ->
  forall fuel dist level map out,
    tree_height t < Z.of_nat fuel ->
    Heap.printBottom_fill fuel p dist level map (Heap.mk_state h out)
    = (Done (printBottom_fill t dist level map), Heap.mk_state h out).
Proof.
  induction 1 as [|a n l r Ha Hl IHl Hr IHr]; intros fuel dist level map out Hf.
  - destruct fuel as [|fuel]; [simpl in Hf; lia|]. reflexivity.
  - pose proof (tree_height_nonneg l). pose proof (tree_height_nonneg r).
    destruct fuel as [|fuel]; [simpl in Hf; lia|].
    simpl in Hf. simpl Heap.printBottom_fill. simpl printBottom_fill.
    unfold printBottom_visit.
    destruct (map_index map dist) as [map1 rec].
    destruct (level >=? snd rec).
    + erewrite bind_done
        by (erewrite bind_done by (apply (get_data_ok _ _ _ _ Ha)); reflexivity).
      cbv beta. heap_read Ha.
      erewrite bind_done by (apply IHl; lia). cbv beta.
      heap_read Ha. apply IHr. lia.
    + erewrite bind_done by reflexivity.
      cbv beta. heap_read Ha.
      erewrite bind_done by (apply IHl; lia). cbv beta.
      heap_read Ha. apply IHr. lia.
Qed.

Lemma printTop_fill_repr h p t :
  Heap.repr h p t ->
  forall fuel dist level map out,
    tree_height t < Z.of_nat fuel ->
    Heap.printTop_fill fuel p dist level map (Heap.mk_state h out)
    = (Done (printTop_fill t dist level map), Heap.mk_state h out).
Proof.
  induction 1 as [|a n l r Ha Hl IHl Hr IHr]; intros fuel dist level map out Hf.
  - destruct fuel as [|fuel]; [simpl in Hf; lia|]. reflexivity.
  - pose proof (tree_height_nonneg l). pose proof (tree_height_nonneg r).
    destruct fuel as [|fuel]; [simpl in Hf; lia|].
    simpl in Hf. simpl Heap.printTop_fill. simpl printTop_fill.
    unfold printTop_visit.
    assert (forall c : Heap.M stdmap, forall m',
               c (Heap.mk_state h out) = (Done m', Heap.mk_state h out) ->
               Heap.bind c (fun map1 =>
                 Heap.bind (Heap.get_left (Some a)) (fun l0 =>
                 Heap.bind (Heap.printTop_fill fuel l0 (int_sub dist 1) (int_add level 1) map1)
                   (fun map2 =>
                 Heap.bind (Heap.get_right (Some a)) (fun r0 =>
                   Heap.printTop_fill fuel r0 (int_add dist 1) (int_add level 1) map2))))
                 (Heap.mk_state h out)
               = (Done (printTop_fill r (int_add dist 1) (int_add level 1)
                          (printTop_fill l (int_sub dist 1) (int_add level 1) m')),
                  Heap.mk_state h out)) as Hrest.
    { intros c m' Hc. erewrite bind_done by exact Hc. cbv beta.
      heap_read Ha. erewrite bind_done by (apply IHl; lia). cbv beta.
      heap_read Ha. apply IHr. lia. }
    destruct (map_find map dist) as [rec|].
    + destruct (level <? snd rec); apply Hrest; [|reflexivity].
      erewrite bind_done by (apply (get_data_ok _ _ _ _ Ha)). reflexivity.
    + apply Hrest.
      erewrite bind_done by (apply (get_data_ok _ _ _ _ Ha)). reflexivity.
Qed.

Lemma printBottom_repr h p t fuel :
  Heap.repr h p t ->
  tree_height t < Z.of_nat fuel ->
  Heap.printBottom fuel p (Heap.mk_state h [])
  = (Done tt, Heap.mk_state h (printBottom t)).
Proof.
  intros Hp Hf. unfold Heap.printBottom.
  erewrite bind_done by (apply (printBottom_fill_repr _ _ _ Hp); exact Hf).
  apply print_stack_ok.
Qed.

Lemma printTop_repr h p t fuel :
  Heap.repr h p t ->
  tree_height t < Z.of_nat fuel ->
  Heap.printTop fuel p (Heap.mk_state h [])
  = (Done tt, Heap.mk_state h (printTop t)).
Proof.
  intros Hp Hf. unfold Heap.printTop.
  erewrite bind_done by (apply (printTop_fill_repr _ _ _ Hp); exact Hf).
  apply print_stack_ok.
Qed.

(** *** The sum transform on an exclusively owned tree *)

Lemma owns_repr h p t fp : Heap.owns h p t fp -> Heap.repr h p t.
Proof. induction 1; econstructor; eassumption. Qed.




(** ** The program on the tree of [main], in the store model *)

Lemma sample_repr : Heap.repr Heap.sample_mem (Some 1%nat) sample.
Proof.
  unfold sample, leaf_node.
  repeat first
    [ apply Heap.repr_null
    | match goal with
      | |- Heap.repr _ (Some ?a) (Node _ ?v _) =>
        let n := eval vm_compute in (Heap.sample_mem !! a) in
        match n with
        | Some ?n' =>
          apply (Heap.repr_node Heap.sample_mem a n'); [reflexivity| |]; simpl
        end
      end ].
Qed.

Lemma sample_owns : exists fp, Heap.owns Heap.sample_mem (Some 1%nat) sample fp.
Proof.
  unfold sample, leaf_node. eexists.
  repeat first
    [ apply Heap.owns_null
    | match goal with
      | |- Heap.owns _ (Some ?a) (Node _ ?v _) _ =>
        let n := eval vm_compute in (Heap.sample_mem !! a) in
        match n with
        | Some ?n' =>
          eapply (Heap.owns_node Heap.sample_mem a n'); [reflexivity| | | | |]; simpl
        end
      end
    | compute_done ].
Qed.

Example sample_store_inorder :
  Heap.inorderRecursive 5 (Some 1%nat) Heap.sample_state
  = (Done tt, Heap.mk_state Heap.sample_mem [4; 2; 1; 7; 5; 8; 3; 6]).
Proof. vm_compute. reflexivity. Qed.

Example sample_store_inorderI :
  Heap.inorderIterative 9 (Some 1%nat) Heap.sample_state
  = (Fault EmptyStackRead, Heap.sample_state).
Proof. vm_compute. reflexivity. Qed.

Example sample_store_bottom :
  Heap.printBottom 5 (Some 1%nat) Heap.sample_state
  = (Done tt, Heap.mk_state Heap.sample_mem [4; 7; 5; 8; 6]).
Proof. vm_compute. reflexivity. Qed.

(** [sumPostorder] writes: after the call the root holds 35. *)
Example sample_store_sum :
  fst (Heap.sumPostorder 5 (Some 1%nat) Heap.sample_state) = Done 36 /\
  Heap.mem (snd (Heap.sumPostorder 5 (Some 1%nat) Heap.sample_state)) !! 1%nat
  = Some (Heap.mk_node 35 (Some 3%nat) (Some 2%nat)).
Proof. split; vm_compute; reflexivity. Qed.

Lemma sumPostorder_not_readonly : ~ Heap.readonly (Heap.sumPostorder 5 (Some 1%nat)).
Proof.
  intros H. specialize (H Heap.sample_state).
  apply (f_equal (fun m => Heap.data <$> m !! 1%nat)) in H.
  vm_compute in H. discriminate.
Qed.

(** ** Properties of the specification *)

(** What holds of the operations on every tree: the recursive traversals,
    [isIdentical], the views and the sum transform are total; the preorder
    and postorder loops end once the budget covers the nodes. *)
Lemma loops_complete t fuel :
  (node_count t <= fuel)%nat ->
  preorderIterative fuel t = Done (preorder t) /\
  postorderIterative fuel t = Done (postorder t).
Proof.
  intros Hf. split.
  - rewrite preorderIterative_correct by assumption.
    now rewrite preorderRecursive_preorder.
  - now apply postorderIterative_correct.
Qed.

Lemma empty_tree_base_cases fuel :
  inorderRecursive Leaf = [] /\ inorderIterative fuel Leaf = Done [] /\
  preorderRecursive Leaf = [] /\ preorderIterative fuel Leaf = Done [] /\
  postorderRecursive Leaf = [] /\ postorderIterative fuel Leaf = Done [] /\
  isIdentical Leaf Leaf = 1 /\
  printBottom Leaf = [] /\ printTop Leaf = [] /\
  sumPostorder Leaf = (0, Leaf).
Proof. repeat split; try reflexivity. apply inorderIterative_empty. Qed.

(** C1. The recursive and the iterative traversals do not agree for every
    order.  On the tree 1 with left child 2 whose right child is 3,
    [postorderRecursive] prints 2 3 1 and [postorderIterative] prints 3 2 1;
    on a single node [inorderRecursive] prints it and [inorderIterative]
    never prints anything, whatever the budget. *)
Theorem traversals_disagree :
  postorderRecursive skewed = [2; 3; 1] /\
  postorderIterative 3 skewed = Done [3; 2; 1] /\
  (forall fuel, postorderIterative fuel skewed <> Done (postorderRecursive skewed)) /\
  inorderRecursive (leaf_node 1) = [1] /\
  (forall fuel,
     inorderIterative fuel (leaf_node 1) <> Done (inorderRecursive (leaf_node 1))).
Proof.
  split; [reflexivity|]. split; [reflexivity|]. split; [|split; [reflexivity|]].
  - intros fuel.
    destruct (le_lt_dec (node_count skewed) fuel) as [Hge|Hlt].
    + rewrite (postorderIterative_correct _ _ Hge). discriminate.
    + simpl in Hlt.
      destruct fuel as [|[|[|fuel]]]; try discriminate. lia.
  - intros fuel. apply inorderIterative_never_done.
Qed.

(** C2. [inorderIterative] fails on every tree that has a node: the first
    run of the loop body reads the top of the empty stack.  This holds in
    the tree model and, for every non-null pointer and every store, in the
    store model, where nothing has been printed by then. *)
Theorem inorderIterative_reads_empty_stack l v r fuel :
  inorderIterative (S fuel) (Node l v r) = Fault EmptyStackRead /\
  (forall (a : nat) (s : Heap.state),
     Heap.inorderIterative (S fuel) (Some a) s = (Fault EmptyStackRead, s)) /\
  (forall out, inorderIterative fuel (Node l v r) <> Done out).
Proof.
  split; [reflexivity|]. split.
  - intros a s. reflexivity.
  - intros out. apply inorderIterative_never_done.
Qed.

(** C3. [postorderRecursive] prints the inorder of the left subtree, the
    inorder of the right subtree and then the node; on the tree 1 with left
    child 2 whose right child is 3 that is 2 3 1, and the postorder is
    3 2 1. *)
Theorem postorderRecursive_not_postorder :
  (forall l v r, postorderRecursive (Node l v r) = inorder l ++ inorder r ++ [v]) /\
  postorderRecursive skewed = [2; 3; 1] /\
  postorder skewed = [3; 2; 1].
Proof. split; [apply postorderRecursive_unfold | split; reflexivity]. Qed.

(** C4, as stated, fails: after [sumPostorder] on 1 with the single child 2
    the root holds 2, while the values its child's subtree holds after the
    rewrite add up to 0. *)
Lemma sumPostorder_not_rewritten_sums :
  snd (sumPostorder pair_tree) = Node (leaf_node 0) 2 Leaf /\
  holds_subtree_sums (snd (sumPostorder pair_tree)) = false /\
  holds_child_sums (snd (sumPostorder pair_tree)) = false.
Proof. repeat split. Qed.

(** C4, amended.  [sumPostorder] leaves the tree of the same shape in which
    every node holds the sum of the values its left and right subtrees held
    before the call (0 for an absent child); a node without children ends
    with 0. *)
Theorem sumPostorder_rewrites t :
  snd (sumPostorder t) = sum_tree t /\
  (forall v, snd (sumPostorder (leaf_node v)) = leaf_node 0).
Proof. split; [now rewrite sumPostorder_eq | reflexivity]. Qed.

(** C5, as stated, fails: on 1 with the single child 2 the call returns 3,
    the sum of the original values, and not 3 + 2. *)
Lemma sumPostorder_not_mixed_sum :
  fst (sumPostorder pair_tree) = 3 /\
  tree_sum pair_tree = 3 /\
  tree_sum (snd (sumPostorder pair_tree)) = 2 /\
  fst (sumPostorder pair_tree)
  <> int_add (int_sum pair_tree) (int_sum (snd (sumPostorder pair_tree))).
Proof. repeat split. discriminate. Qed.

(** C5, amended.  The call returns the new value of the root plus the value
    the root held before; it is the sum of the original values plus the sum
    of the rewritten values only when the rewritten values add up to 0. *)
Theorem sumPostorder_returns_root_pair t :
  fst (sumPostorder t) = int_add (root_data (snd (sumPostorder t))) (root_data t) /\
  (fst (sumPostorder t) = int_add (int_sum t) (int_sum (snd (sumPostorder t)))
   <-> int_sum (snd (sumPostorder t)) = 0).
Proof.
  split.
  - destruct t as [|l v r]; [reflexivity|].
    simpl. destruct (sumPostorder l), (sumPostorder r). reflexivity.
  - rewrite sumPostorder_eq. simpl. unfold int_add, int_sum.
    rewrite int_wrap_add_l, int_wrap_add_r.
    set (orig := tree_sum t). set (rewr := tree_sum (sum_tree t)).
    split; intros H.
    + replace rewr with ((orig + rewr) + - orig) by lia.
      rewrite <- int_wrap_add_l, <- H, int_wrap_add_l.
      now replace (orig + - orig) with 0 by lia.
    + rewrite <- int_wrap_add_r, H. f_equal. lia.
Qed.

(** C8, as stated, fails: on 0 with the single child 5 both calls return
    5. *)
Lemma sumPostorder_twice_same :
  fst (sumPostorder zero_root) = 5 /\
  fst (sumPostorder (snd (sumPostorder zero_root))) = 5.
Proof. split; reflexivity. Qed.

(** C8, amended.  The second call returns the sum of the original values
    each multiplied by the depth of its node, so it differs from the first
    result exactly when that sum differs from the plain sum; on a single
    node the first call returns the value and the second returns 0. *)
Theorem sumPostorder_twice t :
  fst (sumPostorder (snd (sumPostorder t))) = int_wrap (depth_sum t 0) /\
  (fst (sumPostorder (snd (sumPostorder t))) <> fst (sumPostorder t)
   <-> int_wrap (depth_sum t 0) <> int_wrap (tree_sum t)) /\
  (forall v, fst (sumPostorder (leaf_node v)) = int_wrap v /\
             fst (sumPostorder (snd (sumPostorder (leaf_node v)))) = 0).
Proof.
  assert (fst (sumPostorder (snd (sumPostorder t))) = int_wrap (depth_sum t 0)) as H2.
  { repeat (rewrite sumPostorder_eq; simpl). apply int_sum_sum_tree. }
  split; [exact H2|]. split.
  - rewrite H2, sumPostorder_eq. simpl. unfold int_sum. tauto.
  - intros v. split; [|reflexivity].
    rewrite sumPostorder_eq. simpl. unfold int_sum. simpl. f_equal. lia.
Qed.

(** C10. The call returns the sum of the original values of the tree, as an
    [int]; when that sum is in the range of [int] it is the sum itself. *)
Theorem sumPostorder_returns_original_sum t :
  fst (sumPostorder t) = int_wrap (tree_sum t) /\
  (in_range (tree_sum t) -> fst (sumPostorder t) = tree_sum t).
Proof.
  rewrite sumPostorder_eq. simpl. unfold int_sum.
  split; [reflexivity | apply int_wrap_small].
Qed.

Lemma sumPostorder_returns_original_sum_sample :
  in_range (tree_sum sample) /\ fst (sumPostorder sample) = tree_sum sample.
Proof.
  assert (in_range (tree_sum sample)) as H by (vm_compute; split; discriminate).
  split; [exact H|].
  exact (proj2 (sumPostorder_returns_original_sum sample) H).
Defined.

(** The entries of a map with ascending keys, read as placed nodes. *)
Lemma entries_as_placed m :
  map_firsts m = List.map p_value (List.map entry_placed m) /\
  keys m = List.map p_dist (List.map entry_placed m).
Proof.
  unfold map_firsts, keys. rewrite !List.map_map. split; reflexivity.
Qed.

(** C6. On a tree whose levels are [int] values, [printBottom] prints one
    value for each horizontal distance that occurs, by ascending distance,
    and the value is that of the bottom node of the distance: the last node
    in preorder among the deepest ones.  A visit overwrites the recorded
    entry exactly when the level of the visited node is greater than or
    equal to the recorded level. *)
Theorem printBottom_bottom_view t :
  tree_height t <= 2 ^ 31 ->
  (exists es : list placed,
     printBottom t = List.map p_value es /\
     StronglySorted Z.lt (List.map p_dist es) /\
     (forall d, In d (List.map p_dist es)
                <-> In d (List.map p_dist (coords t 0 0))) /\
     List.Forall (fun e => is_bottom_of e (coords t 0 0)) es) /\
  (forall m dist level v p,
     map_find m dist = Some p ->
     map_find (printBottom_visit m dist level v) dist
     = Some (if level >=? snd p then (v, level) else p)).
Proof.
  intros Hh. split.
  - unfold printBottom.
    rewrite (printBottom_fill_fold t 0 0 [] (fits_root t Hh)).
    destruct (bottom_fold_inv (coords t 0 0)) as (Hs & Hk & Hb).
    { apply coords_level_ge. }
    set (m := fold_left bottom_step (coords t 0 0) []) in *.
    destruct (entries_as_placed m) as [Hv Hd].
    exists (List.map entry_placed m).
    split; [exact Hv|]. rewrite <- Hd.
    split; [exact Hs|]. split; [exact Hk|].
    apply List.Forall_forall. intros e He.
    apply in_map_iff in He as ([k p] & <- & Hin).
    apply (Hb k p). now apply In_map_find.
  - intros m dist level v p Hf.
    now rewrite printBottom_visit_find, Z.eqb_refl, Hf.
Qed.

Lemma printBottom_bottom_view_sample :
  tree_height sample <= 2 ^ 31 /\
  exists es : list placed,
    printBottom sample = List.map p_value es /\
    StronglySorted Z.lt (List.map p_dist es) /\
    (forall d, In d (List.map p_dist es)
               <-> In d (List.map p_dist (coords sample 0 0))) /\
    List.Forall (fun e => is_bottom_of e (coords sample 0 0)) es.
Proof.
  assert (tree_height sample <= 2 ^ 31) as H by (vm_compute; discriminate).
  split; [exact H|].
  exact (proj1 (printBottom_bottom_view sample H)).
Defined.

(** C7. On a tree whose levels are [int] values, [printTop] prints one value
    for each horizontal distance that occurs, by ascending distance, and the
    value is that of the top node of the distance: the first node in
    preorder among the shallowest ones.  The first node visited at a
    distance is recorded, and a later visit replaces the entry exactly when
    its level is strictly smaller than the recorded one. *)
Theorem printTop_top_view t :
  tree_height t <= 2 ^ 31 ->
  (exists es : list placed,
     printTop t = List.map p_value es /\
     StronglySorted Z.lt (List.map p_dist es) /\
     (forall d, In d (List.map p_dist es)
                <-> In d (List.map p_dist (coords t 0 0))) /\
     List.Forall (fun e => is_top_of e (coords t 0 0)) es) /\
  (forall m dist level v,
     map_find m dist = None ->
     map_find (printTop_visit m dist level v) dist = Some (v, level)) /\
  (forall m dist level v p,
     map_find m dist = Some p ->
     map_find (printTop_visit m dist level v) dist
     = Some (if level <? snd p then (v, level) else p)).
Proof.
  intros Hh. split; [|split].
  - unfold printTop.
    rewrite (printTop_fill_fold t 0 0 [] (fits_root t Hh)).
    destruct (top_fold_inv (coords t 0 0)) as (Hs & Hk & Hb).
    set (m := fold_left top_step (coords t 0 0) []) in *.
    destruct (entries_as_placed m) as [Hv Hd].
    exists (List.map entry_placed m).
    split; [exact Hv|]. rewrite <- Hd.
    split; [exact Hs|]. split; [exact Hk|].
    apply List.Forall_forall. intros e He.
    apply in_map_iff in He as ([k p] & <- & Hin).
    apply (Hb k p). now apply In_map_find.
  - intros m dist level v Hf.
    now rewrite printTop_visit_find, Z.eqb_refl, Hf.
  - intros m dist level v p Hf.
    now rewrite printTop_visit_find, Z.eqb_refl, Hf.
Qed.

Lemma printTop_top_view_sample :
  tree_height sample <= 2 ^ 31 /\
  exists es : list placed,
    printTop sample = List.map p_value es /\
    StronglySorted Z.lt (List.map p_dist es) /\
    (forall d, In d (List.map p_dist es)
               <-> In d (List.map p_dist (coords sample 0 0))) /\
    List.Forall (fun e => is_top_of e (coords sample 0 0)) es.
Proof.
  assert (tree_height sample <= 2 ^ 31) as H by (vm_compute; discriminate).
  split; [exact H|].
  exact (proj1 (printTop_top_view sample H)).
Defined.

(** C9. Whatever the store, the pointers and the budget, the six traversals,
    [isIdentical], [printBottom] and [printTop] leave every node of the
    store as it was: the value and both child pointers of each address. *)
Theorem readers_leave_store_unchanged fuel :
  (forall p, Heap.readonly (Heap.inorderRecursive fuel p)) /\
  (forall p, Heap.readonly (Heap.inorderIterative fuel p)) /\
  (forall p, Heap.readonly (Heap.preorderRecursive fuel p)) /\
  (forall p, Heap.readonly (Heap.preorderIterative fuel p)) /\
  (forall p, Heap.readonly (Heap.postorderRecursive fuel p)) /\
  (forall p, Heap.readonly (Heap.postorderIterative fuel p)) /\
  (forall x y, Heap.readonly (Heap.isIdentical fuel x y)) /\
  (forall p, Heap.readonly (Heap.printBottom fuel p)) /\
  (forall p, Heap.readonly (Heap.printTop fuel p)).
Proof.
  repeat apply conj.
  - intros p. apply HeapFacts.readonly_inorderRecursive.
  - intros p. unfold Heap.inorderIterative.
    apply HeapFacts.readonly_inorderIterative_loop.
  - intros p. apply HeapFacts.readonly_preorderRecursive.
  - intros [a|]; unfold Heap.preorderIterative.
    + apply HeapFacts.readonly_preorderIterative_loop.
    + apply HeapFacts.readonly_ret.
  - intros [a|]; unfold Heap.postorderRecursive; [|apply HeapFacts.readonly_ret].
    apply HeapFacts.readonly_bind; [apply HeapFacts.readonly_get_left | intros l].
    apply HeapFacts.readonly_bind; [apply HeapFacts.readonly_inorderRecursive | intros _].
    apply HeapFacts.readonly_bind; [apply HeapFacts.readonly_get_right | intros r].
    apply HeapFacts.readonly_bind; [apply HeapFacts.readonly_inorderRecursive | intros _].
    apply HeapFacts.readonly_bind; [apply HeapFacts.readonly_get_data | intros v].
    apply HeapFacts.readonly_print.
  - intros [a|]; unfold Heap.postorderIterative; [|apply HeapFacts.readonly_ret].
    apply HeapFacts.readonly_bind;
      [apply HeapFacts.readonly_postorderIterative_loop
      | intros ?; apply HeapFacts.readonly_print_stack].
  - intros x y. apply HeapFacts.readonly_isIdentical.
  - intros p. unfold Heap.printBottom. apply HeapFacts.readonly_bind;
      [apply HeapFacts.readonly_printBottom_fill
      | intros ?; apply HeapFacts.readonly_print_stack].
  - intros p. unfold Heap.printTop. apply HeapFacts.readonly_bind;
      [apply HeapFacts.readonly_printTop_fill
      | intros ?; apply HeapFacts.readonly_print_stack].
Qed.

(** ** Further properties of the traversals *)

(** A loop that is handed fewer steps than its stack holds nodes runs out
    of budget: every run of the body takes exactly one node off. *)
Lemma preorderIterative_loop_short fuel :
  forall stack out,
    Forall present stack ->
    (fuel < stack_nodes stack)%nat ->
    preorderIterative_loop fuel stack out = OutOfFuel.
Proof.
  induction fuel as [|fuel IH]; intros stack out Hp Hn;
    (destruct stack as [|c stack]; [unfold stack_nodes in Hn; simpl in Hn; lia|]).
  - reflexivity.
  - apply Forall_cons in Hp as [Hc Hs].
    destruct c as [|l v r]; [now elim Hc|]. simpl.
    apply IH.
    + now do 2 apply push_present_Forall.
    + rewrite !push_present_nodes. unfold stack_nodes in *. simpl in Hn. lia.
Qed.

Lemma postorderIterative_loop_short fuel :
  forall stack out,
    Forall present stack ->
    (fuel < stack_nodes stack)%nat ->
    postorderIterative_loop fuel stack out = OutOfFuel.
Proof.
  induction fuel as [|fuel IH]; intros stack out Hp Hn;
    (destruct stack as [|c stack]; [unfold stack_nodes in Hn; simpl in Hn; lia|]).
  - reflexivity.
  - apply Forall_cons in Hp as [Hc Hs].
    destruct c as [|l v r]; [now elim Hc|]. simpl.
    apply IH.
    + now do 2 apply push_present_Forall.
    + rewrite !push_present_nodes. unfold stack_nodes in *. simpl in Hn. lia.
Qed.

Lemma single_stack_present l v r : Forall present [Node l v r].
Proof. constructor; [unfold present; discriminate | constructor]. Qed.

Lemma single_stack_nodes t : stack_nodes [t] = node_count t.
Proof. unfold stack_nodes. simpl. lia. Qed.

(** X1. [preorderIterative] runs its loop body once for every node of the
    tree: with a budget of at least that many steps it prints what
    [preorderRecursive] prints, with a smaller one it has not finished, and
    it never dereferences a null pointer or reads an empty stack. *)
Theorem preorderIterative_exact t fuel :
  preorderIterative fuel t
  = if (node_count t <=? fuel)%nat then Done (preorderRecursive t) else OutOfFuel.
Proof.
  destruct (Nat.leb_spec (node_count t) fuel) as [Hle|Hlt].
  - rewrite preorderRecursive_preorder.
    destruct t as [|l v r]; [reflexivity|].
    unfold preorderIterative. rewrite preorderIterative_loop_run.
    + simpl. now rewrite app_nil_r.
    + apply single_stack_present.
    + now rewrite single_stack_nodes.
  - destruct t as [|l v r]; [simpl in Hlt; lia|].
    unfold preorderIterative. apply preorderIterative_loop_short.
    + apply single_stack_present.
    + now rewrite single_stack_nodes.
Qed.

(** X2. [postorderIterative] runs its first loop once for every node and
    then prints the postorder of the tree: left subtree, right subtree,
    node. *)
Theorem postorderIterative_exact t fuel :
  postorderIterative fuel t
  = if (node_count t <=? fuel)%nat then Done (postorder t) else OutOfFuel.
Proof.
  destruct (Nat.leb_spec (node_count t) fuel) as [Hle|Hlt].
  - destruct t as [|l v r]; [reflexivity|].
    unfold postorderIterative. rewrite postorderIterative_loop_run.
    + rewrite drain_id. simpl flat_map.
      now rewrite !app_nil_r, rev_involutive.
    + apply single_stack_present.
    + now rewrite single_stack_nodes.
  - destruct t as [|l v r]; [simpl in Hlt; lia|].
    unfold postorderIterative. rewrite postorderIterative_loop_short.
    + reflexivity.
    + apply single_stack_present.
    + now rewrite single_stack_nodes.
Qed.

Lemma inorder_preorder_perm t : Permutation (inorder t) (preorder t).
Proof.
  induction t as [|l IHl v r IHr]; simpl; [constructor|].
  rewrite <- Permutation_middle. constructor. now apply Permutation_app.
Qed.

Lemma preorder_length t : length (preorder t) = node_count t.
Proof.
  induction t as [|l IHl v r IHr]; simpl; [reflexivity|].
  rewrite length_app. lia.
Qed.

(** X3. The three recursive traversals print every node exactly once: their
    outputs are rearrangements of one another and have as many values as
    the tree has nodes.  This includes [postorderRecursive], whose order is
    not the postorder. *)
Theorem recursive_traversals_visit_once t :
  Permutation (inorderRecursive t) (preorderRecursive t) /\
  Permutation (postorderRecursive t) (preorderRecursive t) /\
  length (preorderRecursive t) = node_count t.
Proof.
  rewrite inorderRecursive_inorder, preorderRecursive_preorder.
  split; [apply inorder_preorder_perm|]. split; [|apply preorder_length].
  destruct t as [|l v r]; [constructor|].
  rewrite postorderRecursive_unfold. simpl.
  rewrite app_assoc, <- Permutation_cons_append. constructor.
  apply Permutation_app; apply inorder_preorder_perm.
Qed.

(** ** Further properties of [isIdentical] *)

(** X4. [isIdentical] returns 1 when the two trees have the same shape and
    hold the same values at the same places, and 0 in every other case; it
    returns no other [int]. *)
Theorem isIdentical_decides x y :
  (isIdentical x y = 1 <-> x = y) /\ (isIdentical x y = 0 <-> x <> y).
Proof.
  pose proof (isIdentical_iff x y) as Hiff.
  split; [exact Hiff|].
  destruct (isIdentical_bit x y) as [E|E]; rewrite E in *.
  - split; [|reflexivity]. intros _ Heq. apply Hiff in Heq. discriminate.
  - split; [discriminate|]. intros Hne. elim Hne. now apply Hiff.
Qed.

(** A pointer represents at most one tree. *)
Lemma repr_functional h p t :
  Heap.repr h p t -> forall t', Heap.repr h p t' -> t' = t.
Proof.
  induction 1 as [|a n l r Ha Hl IHl Hr IHr]; intros t' Ht'.
  - now apply repr_null_inv in Ht'.
  - apply repr_node_inv in Ht' as (n' & l' & r' & -> & Ha' & Hl' & Hr').
    rewrite Ha in Ha'. injection Ha' as <-.
    now rewrite (IHl _ Hl'), (IHr _ Hr').
Qed.

(** X5. In the store model, on two pointers that represent trees,
    [isIdentical] needs a recursion depth of at most the height of the first
    tree plus one, returns the answer of the tree model, prints nothing and
    leaves the store as it is.  When both arguments are the same pointer, as
    in [isIdentical(root, root)], the answer is 1. *)
Theorem isIdentical_on_store h x y tx ty fuel out :
  Heap.repr h x tx ->
  Heap.repr h y ty ->
  tree_height tx < Z.of_nat fuel ->
  Heap.isIdentical fuel x y (Heap.mk_state h out)
  = (Done (isIdentical tx ty), Heap.mk_state h out) /\
  (x = y -> isIdentical tx ty = 1).
Proof.
  intros Hx Hy Hf. split.
  - now apply (isIdentical_repr h x tx Hx).
  - intros <-. rewrite (repr_functional _ _ _ Hx _ Hy). apply isIdentical_refl.
Qed.

Lemma isIdentical_on_store_sample :
  (Heap.repr Heap.sample_mem (Some 1%nat) sample /\
   Heap.repr Heap.sample_mem (Some 1%nat) sample /\
   tree_height sample < Z.of_nat 5) /\
  Heap.isIdentical 5 (Some 1%nat) (Some 1%nat) (Heap.mk_state Heap.sample_mem [])
  = (Done (isIdentical sample sample), Heap.mk_state Heap.sample_mem []) /\
  (Some 1%nat = Some 1%nat -> isIdentical sample sample = 1).
Proof.
  assert (tree_height sample < Z.of_nat 5) as Hf by (vm_compute; reflexivity).
  split; [split; [exact sample_repr | split; [exact sample_repr | exact Hf]]|].
  exact (isIdentical_on_store _ _ _ _ _ 5%nat [] sample_repr sample_repr Hf).
Defined.

(** ** Further properties of the views *)

Lemma sorted_same_elements (l1 : list Z) :
  forall l2,
    StronglySorted Z.lt l1 -> StronglySorted Z.lt l2 ->
    (forall x, In x l1 <-> In x l2) -> l1 = l2.
Proof.
  induction l1 as [|a l1 IH]; intros [|b l2] H1 H2 Hsame.
  - reflexivity.
  - exfalso. apply (proj2 (Hsame b)). now left.
  - exfalso. apply (proj1 (Hsame a)). now left.
  - apply StronglySorted_inv in H1 as [H1 Ha].
    apply StronglySorted_inv in H2 as [H2 Hb].
    rewrite List.Forall_forall in Ha, Hb.
    assert (a = b) as ->.
    { destruct (proj1 (Hsame a)) as [Hab|Hab]; [now left | congruence |].
      destruct (proj2 (Hsame b)) as [Hba|Hba]; [now left | congruence |].
      specialize (Ha _ Hba). specialize (Hb _ Hab). lia. }
    f_equal. apply IH; try assumption.
    intros x. split; intros Hx.
    + destruct (proj1 (Hsame x)) as [<-|H]; [now right | | assumption].
      specialize (Ha _ Hx). lia.
    + destruct (proj2 (Hsame x)) as [<-|H]; [now right | | assumption].
      specialize (Hb _ Hx). lia.
Qed.

(** The keys that the two views record for a tree that fits. *)
Lemma printBottom_fill_keys t :
  tree_height t <= 2 ^ 31 ->
  StronglySorted Z.lt (keys (printBottom_fill t 0 0 [])) /\
  (forall d, In d (keys (printBottom_fill t 0 0 [])) <-> In d (columns t 0)).
Proof.
  intros Hh. rewrite (printBottom_fill_fold t 0 0 [] (fits_root t Hh)).
  destruct (bottom_fold_inv (coords t 0 0) (coords_level_ge t 0 0)) as (Hs & Hk & _).
  split; assumption.
Qed.

Lemma printTop_fill_keys t :
  tree_height t <= 2 ^ 31 ->
  StronglySorted Z.lt (keys (printTop_fill t 0 0 [])) /\
  (forall d, In d (keys (printTop_fill t 0 0 [])) <-> In d (columns t 0)).
Proof.
  intros Hh. rewrite (printTop_fill_fold t 0 0 [] (fits_root t Hh)).
  destruct (top_fold_inv (coords t 0 0)) as (Hs & Hk & _).
  split; assumption.
Qed.

Lemma map_firsts_length m : length (map_firsts m) = length (keys m).
Proof. unfold map_firsts, keys. now rewrite !length_map. Qed.

(** X6. On a tree whose levels are [int] values, [printBottom] and
    [printTop] record the same horizontal distances and print the same
    number of values. *)
Theorem views_same_columns t :
  tree_height t <= 2 ^ 31 ->
  keys (printBottom_fill t 0 0 []) = keys (printTop_fill t 0 0 []) /\
  length (printBottom t) = length (printTop t).
Proof.
  intros Hh.
  destruct (printBottom_fill_keys t Hh) as [Hsb Hkb].
  destruct (printTop_fill_keys t Hh) as [Hst Hkt].
  assert (keys (printBottom_fill t 0 0 []) = keys (printTop_fill t 0 0 [])) as E.
  { apply sorted_same_elements; try assumption.
    intros x. now rewrite Hkb, Hkt. }
  split; [exact E|].
  unfold printBottom, printTop. now rewrite !map_firsts_length, E.
Qed.

Lemma views_same_columns_sample :
  tree_height sample <= 2 ^ 31 /\
  keys (printBottom_fill sample 0 0 []) = keys (printTop_fill sample 0 0 []) /\
  length (printBottom sample) = length (printTop sample).
Proof.
  assert (tree_height sample <= 2 ^ 31) as H by (vm_compute; discriminate).
  split; [exact H|].
  exact (views_same_columns sample H).
Defined.

(** Every integer between the distance of a node and that of the root is
    the distance of some node. *)
Lemma coords_columns_star t :
  forall d l x z,
    In x (List.map p_dist (coords t d l)) ->
    (x <= z <= d \/ d <= z <= x) ->
    In z (List.map p_dist (coords t d l)).
Proof.
  induction t as [|tl IHl v tr IHr]; intros d l x z Hx Hz; simpl in *;
    [contradiction|].
  destruct (Z.eq_dec z d) as [->|Hne]; [now left|]. right.
  rewrite List.map_app, in_app_iff in *.
  destruct Hx as [<-|[Hx|Hx]]; [lia | left | right].
  - apply (IHl _ _ x z Hx). lia.
  - apply (IHr _ _ x z Hx). lia.
Qed.

Lemma coords_dist_bound t :
  forall d l x,
    In x (List.map p_dist (coords t d l)) ->
    d - (tree_height t - 1) <= x <= d + (tree_height t - 1).
Proof.
  induction t as [|tl IHl v tr IHr]; intros d l x Hx; simpl in *;
    [contradiction|].
  pose proof (tree_height_nonneg tl). pose proof (tree_height_nonneg tr).
  rewrite List.map_app, in_app_iff in Hx.
  destruct Hx as [<-|[Hx|Hx]]; [lia | |].
  - specialize (IHl _ _ _ Hx). lia.
  - specialize (IHr _ _ _ Hx). lia.
Qed.

Lemma z_range_In n : forall lo x, In x (z_range lo n) <-> lo <= x < lo + Z.of_nat n.
Proof.
  induction n as [|n IH]; intros lo x; simpl; [lia|].
  rewrite IH. lia.
Qed.

(** A strictly ascending list without gaps is a run of consecutive
    integers. *)
Lemma sorted_convex_range (l : list Z) :
  StronglySorted Z.lt l ->
  (forall x y z, In x l -> In y l -> x <= z <= y -> In z l) ->
  l = z_range (hd 0 l) (length l).
Proof.
  induction l as [|a l IH]; intros Hs Hc; [reflexivity|].
  apply StronglySorted_inv in Hs as [Hs Ha].
  simpl. f_equal.
  destruct l as [|b l]; [reflexivity|].
  assert (b = a + 1) as Hb.
  { apply List.Forall_cons_iff in Ha as [Hab _].
    assert (In (a + 1) (a :: b :: l)) as Hin
      by (apply (Hc a b); [now left | right; now left | lia]).
    destruct Hin as [Hin|[Hin|Hin]]; [lia | lia |].
    apply StronglySorted_inv in Hs as [_ Hbl].
    rewrite List.Forall_forall in Hbl. specialize (Hbl _ Hin). lia. }
  rewrite <- Hb. apply IH; [assumption|].
  intros x y z Hx Hy Hz.
  assert (In z (a :: b :: l)) as Hin by (apply (Hc x y); [now right | now right | assumption]).
  destruct Hin as [<-|Hin]; [|assumption].
  rewrite List.Forall_forall in Ha. specialize (Ha _ Hx). lia.
Qed.

(** X7. On a tree with at least one node whose levels are [int] values, the
    distances a view records are consecutive integers around 0: no column
    between the leftmost and the rightmost node is skipped, and a view
    prints at most 2 * height - 1 values. *)
Theorem view_columns_contiguous t :
  tree_height t <= 2 ^ 31 ->
  present t ->
  exists lo,
    keys (printBottom_fill t 0 0 []) = z_range lo (length (printBottom t)) /\
    lo <= 0 < lo + Z.of_nat (length (printBottom t)) /\
    Z.of_nat (length (printBottom t)) <= 2 * tree_height t - 1.
Proof.
  intros Hh Hp.
  destruct (printBottom_fill_keys t Hh) as [Hs Hk].
  unfold printBottom. rewrite map_firsts_length.
  set (ks := keys (printBottom_fill t 0 0 [])) in *.
  assert (In 0 ks) as H0.
  { apply Hk. destruct t as [|l v r]; [now elim Hp|]. now left. }
  assert (ks = z_range (hd 0 ks) (length ks)) as Hrange.
  { apply sorted_convex_range; [assumption|].
    intros x y z Hx Hy Hz. apply Hk. apply Hk in Hx, Hy.
    destruct (Z.le_ge_cases z 0).
    - apply (coords_columns_star t 0 0 x z Hx). lia.
    - apply (coords_columns_star t 0 0 y z Hy). lia. }
  exists (hd 0 ks). split; [exact Hrange|].
  assert (forall x, In x ks -> - (tree_height t - 1) <= x <= tree_height t - 1) as Hb.
  { intros x Hx. apply Hk in Hx. apply coords_dist_bound in Hx. lia. }
  rewrite Hrange in H0. apply z_range_In in H0. split; [exact H0|].
  assert (forall x, hd 0 ks <= x < hd 0 ks + Z.of_nat (length ks) -> In x ks) as Hin.
  { intros x Hx. rewrite Hrange. now apply z_range_In. }
  assert (In (hd 0 ks) ks) as Hlo by (apply Hin; lia).
  assert (In (hd 0 ks + Z.of_nat (length ks) - 1) ks) as Hhi by (apply Hin; lia).
  apply Hb in Hlo, Hhi. lia.
Qed.

Lemma view_columns_contiguous_sample :
  (tree_height sample <= 2 ^ 31 /\ present sample) /\
  exists lo,
    keys (printBottom_fill sample 0 0 []) = z_range lo (length (printBottom sample)) /\
    lo <= 0 < lo + Z.of_nat (length (printBottom sample)) /\
    Z.of_nat (length (printBottom sample)) <= 2 * tree_height sample - 1.
Proof.
  assert (tree_height sample <= 2 ^ 31) as H by (vm_compute; discriminate).
  assert (present sample) as Hp by (unfold present; discriminate).
  split; [split; [exact H | exact Hp]|].
  exact (view_columns_contiguous sample H Hp).
Defined.

Lemma coords_values t : forall d l, List.map p_value (coords t d l) = preorder t.
Proof.
  induction t as [|tl IHl v tr IHr]; intros d l; simpl; [reflexivity|].
  now rewrite List.map_app, IHl, IHr.
Qed.

Lemma is_bottom_of_In e cs : is_bottom_of e cs -> In e cs.
Proof. intros (pre & post & -> & _). apply in_elt. Qed.

Lemma is_top_of_In e cs : is_top_of e cs -> In e cs.
Proof. intros (pre & post & -> & _). apply in_elt. Qed.

Lemma map_firsts_In m v :
  In v (map_firsts m) -> exists k l, In (k, (v, l)) m.
Proof.
  unfold map_firsts. intros H.
  apply in_map_iff in H as ([k [v' l]] & <- & Hin). now exists k, l.
Qed.

(** X8. On a tree whose levels are [int] values, every value a view prints
    is the value of a node of the tree: the pair [{0, 0}] that
    [map[dist]] inserts for a missing key in [printBottom] is always
    overwritten before it can be printed. *)
Theorem views_print_node_values t v :
  tree_height t <= 2 ^ 31 ->
  (In v (printBottom t) -> In v (preorderRecursive t)) /\
  (In v (printTop t) -> In v (preorderRecursive t)).
Proof.
  intros Hh. rewrite preorderRecursive_preorder, <- (coords_values t 0 0).
  split; intros Hv; apply map_firsts_In in Hv as (k & l & Hin).
  - destruct (printBottom_fill_keys t Hh) as [Hs _].
    apply (In_map_find _ _ _ Hs) in Hin.
    rewrite (printBottom_fill_fold t 0 0 [] (fits_root t Hh)) in Hin.
    destruct (bottom_fold_inv (coords t 0 0) (coords_level_ge t 0 0)) as (_ & _ & Hb).
    apply Hb, is_bottom_of_In in Hin.
    apply in_map_iff. now exists (mk_placed k l v).
  - destruct (printTop_fill_keys t Hh) as [Hs _].
    apply (In_map_find _ _ _ Hs) in Hin.
    rewrite (printTop_fill_fold t 0 0 [] (fits_root t Hh)) in Hin.
    destruct (top_fold_inv (coords t 0 0)) as (_ & _ & Hb).
    apply Hb, is_top_of_In in Hin.
    apply in_map_iff. now exists (mk_placed k l v).
Qed.

Lemma views_print_node_values_sample :
  tree_height sample <= 2 ^ 31 /\
  (In 7 (printBottom sample) -> In 7 (preorderRecursive sample)) /\
  (In 7 (printTop sample) -> In 7 (preorderRecursive sample)).
Proof.
  assert (tree_height sample <= 2 ^ 31) as H by (vm_compute; discriminate).
  split; [exact H|].
  exact (views_print_node_values sample 7 H).
Defined.

(** X9. On a tree whose levels are [int] values, the entry that [printTop]
    records for distance 0 is the root with level 0, so the value of the
    root is always among the values [printTop] prints. *)
Theorem printTop_records_root l v r :
  tree_height (Node l v r) <= 2 ^ 31 ->
  map_find (printTop_fill (Node l v r) 0 0 []) 0 = Some (v, 0) /\
  In v (printTop (Node l v r)).
Proof.
  intros Hh.
  assert (map_find (printTop_fill (Node l v r) 0 0 []) 0 = Some (v, 0)) as Hroot.
  { destruct (printTop_fill_keys _ Hh) as [_ Hk].
    rewrite (printTop_fill_fold _ 0 0 [] (fits_root _ Hh)) in *.
    destruct (top_fold_inv (coords (Node l v r) 0 0)) as (_ & _ & Hb).
    set (m := fold_left top_step (coords (Node l v r) 0 0) []) in *.
    destruct (map_find m 0) as [[v0 l0]|] eqn:Hf.
    - specialize (Hb _ _ Hf). simpl fst in Hb. simpl snd in Hb.
      pose proof (is_top_of_In _ _ Hb) as Hin.
      pose proof (coords_level_ge (Node l v r) 0 0) as Hlev.
      rewrite List.Forall_forall in Hlev. specialize (Hlev _ Hin). simpl in Hlev.
      destruct Hb as (pre & post & Hsplit & Hpre & _).
      destruct pre as [|c pre]; simpl in Hsplit.
      + now injection Hsplit as <- <- _.
      + injection Hsplit as <- _.
        specialize (Hpre (mk_placed 0 0 v) (or_introl eq_refl) eq_refl).
        simpl in Hpre. lia.
    - apply map_find_None in Hf. elim Hf. apply Hk. now left. }
  split; [exact Hroot|].
  apply map_find_In in Hroot. unfold printTop, map_firsts.
  apply in_map_iff. now exists (0, (v, 0)).
Qed.

Lemma printTop_records_root_sample :
  tree_height (Node (leaf_node 2) 1 (leaf_node 3)) <= 2 ^ 31 /\
  map_find (printTop_fill (Node (leaf_node 2) 1 (leaf_node 3)) 0 0 []) 0 = Some (1, 0) /\
  In 1 (printTop (Node (leaf_node 2) 1 (leaf_node 3))).
Proof.
  assert (tree_height (Node (leaf_node 2) 1 (leaf_node 3)) <= 2 ^ 31) as H
    by (vm_compute; discriminate).
  split; [exact H|].
  exact (printTop_records_root (leaf_node 2) 1 (leaf_node 3) H).
Defined.

(** X10. The four-argument [printBottom] relies on levels that are not
    negative: called on a single node with a negative level and a map that
    has no entry for the distance, it leaves the inserted pair [{0, 0}] in
    the map, so 0 would be printed for that distance.  The four-argument
    [printTop], which tests [map.find] first, records the node. *)
Theorem printBottom_negative_level m dist level v :
  map_find m dist = None ->
  level < 0 ->
  map_find (printBottom_fill (leaf_node v) dist level m) dist = Some (0, 0) /\
  map_find (printTop_fill (leaf_node v) dist level m) dist = Some (v, level).
Proof.
  intros Hf Hl. simpl.
  rewrite printBottom_visit_find, printTop_visit_find, Z.eqb_refl, Hf.
  destruct (Z.geb_spec level 0); [lia|]. split; reflexivity.
Qed.

Lemma printBottom_negative_level_sample :
  (map_find [] 3 = None /\ -1 < 0) /\
  map_find (printBottom_fill (leaf_node 7) 3 (-1) []) 3 = Some (0, 0) /\
  map_find (printTop_fill (leaf_node 7) 3 (-1) []) 3 = Some (7, -1).
Proof.
  assert (map_find [] 3 = None) as Hf by reflexivity.
  assert (-1 < 0) as Hl by reflexivity.
  split; [split; [exact Hf | exact Hl]|].
  exact (printBottom_negative_level [] 3 (-1) 7 Hf Hl).
Defined.

(** ** Further properties in the store model *)

Lemma same_links_refl h : Heap.same_links h h.
Proof. intros a. destruct (h !! a); auto. Qed.

Lemma same_links_trans h1 h2 h3 :
  Heap.same_links h1 h2 -> Heap.same_links h2 h3 -> Heap.same_links h1 h3.
Proof.
  intros H12 H23 a. specialize (H12 a). specialize (H23 a).
  destruct (h1 !! a), (h2 !! a), (h3 !! a); try tauto.
  destruct H12, H23. split; congruence.
Qed.

Lemma keeps_links_readonly {A} (c : Heap.M A) :
  (forall s, snd (c s) = s) -> Heap.keeps_links c.
Proof. intros H s. rewrite H. split; [apply same_links_refl | reflexivity]. Qed.

Lemma keeps_links_ret {A} (a : A) : Heap.keeps_links (Heap.ret a).
Proof. now apply keeps_links_readonly. Qed.

Lemma keeps_links_out_of_fuel {A} : Heap.keeps_links (@Heap.out_of_fuel A).
Proof. now apply keeps_links_readonly. Qed.

Lemma keeps_links_deref p : Heap.keeps_links (Heap.deref p).
Proof.
  apply keeps_links_readonly. intros s. unfold Heap.deref.
  destruct p as [a|]; [|reflexivity]. destruct (Heap.mem s !! a); reflexivity.
Qed.

Lemma keeps_links_bind {A B} (c : Heap.M A) (k : A -> Heap.M B) :
  Heap.keeps_links c -> (forall a, Heap.keeps_links (k a)) ->
  Heap.keeps_links (Heap.bind c k).
Proof.
  intros Hc Hk s. unfold Heap.bind. destruct (Hc s) as [Hl Ho].
  destruct (c s) as [[a|f|] s']; simpl in *; try (split; assumption).
  destruct (Hk a s') as [Hl' Ho']. split; [|congruence].
  eapply same_links_trans; eassumption.
Qed.

Lemma keeps_links_get_data p : Heap.keeps_links (Heap.get_data p).
Proof.
  apply keeps_links_bind; [apply keeps_links_deref | intros; apply keeps_links_ret].
Qed.

Lemma keeps_links_get_left p : Heap.keeps_links (Heap.get_left p).
Proof.
  apply keeps_links_bind; [apply keeps_links_deref | intros; apply keeps_links_ret].
Qed.

Lemma keeps_links_get_right p : Heap.keeps_links (Heap.get_right p).
Proof.
  apply keeps_links_bind; [apply keeps_links_deref | intros; apply keeps_links_ret].
Qed.

(** The assignment [p->data = v] changes the value of one node only. *)
Lemma keeps_links_set_data p v : Heap.keeps_links (Heap.set_data p v).
Proof.
  intros s. unfold Heap.set_data, Heap.bind, Heap.deref.
  destruct p as [a|]; simpl; [|split; [apply same_links_refl | reflexivity]].
  destruct (Heap.mem s !! a) as [n|] eqn:Ha; simpl;
    [|split; [apply same_links_refl | reflexivity]].
  split; [|reflexivity]. intros b.
  destruct (decide (a = b)) as [<-|Hne].
  - rewrite Ha, lookup_insert_eq. split; reflexivity.
  - rewrite lookup_insert_ne by assumption. destruct (Heap.mem s !! b); auto.
Qed.

(** X11. Whatever the store, the pointer and the recursion budget,
    [sumPostorder] prints nothing, allocates and frees no node and changes
    no [left] or [right] pointer: the only thing it may change is the
    [data] of nodes.  This holds also when children are shared and when the
    call does not complete. *)
Theorem sumPostorder_keeps_links fuel :
  forall p, Heap.keeps_links (Heap.sumPostorder fuel p).
Proof.
  induction fuel as [|fuel IH]; intros p; simpl.
  - apply keeps_links_out_of_fuel.
  - destruct p as [a|]; [|apply keeps_links_ret].
    apply keeps_links_bind; [apply keeps_links_get_left | intros l].
    apply keeps_links_bind; [apply IH | intros leftSum].
    apply keeps_links_bind; [apply keeps_links_get_right | intros r].
    apply keeps_links_bind; [apply IH | intros rightSum].
    apply keeps_links_bind; [apply keeps_links_get_data | intros prevData].
    apply keeps_links_bind; [apply keeps_links_set_data | intros _].
    apply keeps_links_bind; [apply keeps_links_get_data | intros v].
    apply keeps_links_ret.
Qed.




(** With a recursion depth of at most the height, the call does not
    complete. *)
Lemma inorderRecursive_short h p t :
  Heap.repr h p t ->
  forall fuel out,
    Z.of_nat fuel <= tree_height t ->
    exists out',
      Heap.inorderRecursive fuel p (Heap.mk_state h out)
      = (OutOfFuel, Heap.mk_state h out').
Proof.
  induction 1 as [|a n l r Ha Hl IHl Hr IHr]; intros fuel out Hf.
  - destruct fuel as [|fuel]; [|simpl in Hf; lia]. now exists out.
  - destruct fuel as [|fuel]; [now exists out|].
    simpl in Hf. simpl Heap.inorderRecursive. heap_read Ha.
    destruct (Z.le_gt_cases (Z.of_nat fuel) (tree_height l)) as [Hle|Hgt].
    + destruct (IHl fuel out Hle) as (out' & Hrun).
      exists out'. now apply bind_out_of_fuel.
    + erewrite bind_done by (apply (inorderRecursive_repr _ _ _ Hl); lia).
      cbv beta. heap_read Ha. heap_read Ha. heap_read Ha.
      apply IHr. lia.
Qed.

(** X13. In the store model, on a pointer that represents the tree [t],
    [inorderRecursive] needs a recursion depth of exactly the height of [t]
    plus one: with that depth it completes, having appended the inorder
    sequence of [t] to the output and left the store as it was; with less it
    does not complete. *)
Theorem inorderRecursive_depth h p t fuel out :
  Heap.repr h p t ->
  if tree_height t <? Z.of_nat fuel
  then Heap.inorderRecursive fuel p (Heap.mk_state h out)
       = (Done tt, Heap.mk_state h (out ++ inorder t))
  else exists out',
       Heap.inorderRecursive fuel p (Heap.mk_state h out)
       = (OutOfFuel, Heap.mk_state h out').
Proof.
  intros Hr. destruct (Z.ltb_spec (tree_height t) (Z.of_nat fuel)) as [Hlt|Hge].
  - rewrite <- inorderRecursive_inorder. now apply (inorderRecursive_repr _ _ _ Hr).
  - now apply (inorderRecursive_short _ _ _ Hr).
Qed.

Lemma inorderRecursive_depth_sample :
  Heap.repr Heap.sample_mem (Some 1%nat) sample /\
  Heap.inorderRecursive 5 (Some 1%nat) (Heap.mk_state Heap.sample_mem [])
  = (Done tt, Heap.mk_state Heap.sample_mem ([] ++ inorder sample)).
Proof.
  split; [exact sample_repr|].
  exact (inorderRecursive_depth Heap.sample_mem (Some 1%nat) sample 5 [] sample_repr).
Defined.

(** X14. In the store model, on a pointer that represents the tree [t],
    the two loops that work ([preorderIterative], [postorderIterative])
    complete within one step per node without dereferencing a null pointer
    or reading an empty stack, print the preorder and the postorder of [t],
    and leave the store as it was. *)
Theorem iterative_traversals_on_store h p t fuel :
  Heap.repr h p t ->
  (node_count t <= fuel)%nat ->
  Heap.preorderIterative fuel p (Heap.mk_state h [])
  = (Done tt, Heap.mk_state h (preorder t)) /\
  Heap.postorderIterative fuel p (Heap.mk_state h [])
  = (Done tt, Heap.mk_state h (postorder t)).
Proof.
  intros Hr Hf. split.
  - pose proof (preorderIterative_repr h p t fuel Hr) as H.
    rewrite (preorderIterative_correct t fuel Hf), preorderRecursive_preorder in H.
    exact H.
  - pose proof (postorderIterative_repr h p t fuel Hr) as H.
    rewrite (postorderIterative_correct t fuel Hf) in H.
    exact H.
Qed.

Lemma iterative_traversals_on_store_sample :
  (Heap.repr Heap.sample_mem (Some 1%nat) sample /\ (node_count sample <= 8)%nat) /\
  Heap.preorderIterative 8 (Some 1%nat) (Heap.mk_state Heap.sample_mem [])
  = (Done tt, Heap.mk_state Heap.sample_mem (preorder sample)) /\
  Heap.postorderIterative 8 (Some 1%nat) (Heap.mk_state Heap.sample_mem [])
  = (Done tt, Heap.mk_state Heap.sample_mem (postorder sample)).
Proof.
  assert (node_count sample <= 8)%nat as Hf by (vm_compute; reflexivity).
  split; [split; [exact sample_repr | exact Hf]|].
  exact (iterative_traversals_on_store _ _ _ 8%nat sample_repr Hf).
Defined.

(** X15. In the store model, on a pointer that represents the tree [t],
    [printBottom] and [printTop] complete with a recursion depth above the
    height of [t], print the views of the tree model and leave the store as
    it was. *)
Theorem views_on_store h p t fuel :
  Heap.repr h p t ->
  tree_height t < Z.of_nat fuel ->
  Heap.printBottom fuel p (Heap.mk_state h [])
  = (Done tt, Heap.mk_state h (printBottom t)) /\
  Heap.printTop fuel p (Heap.mk_state h [])
  = (Done tt, Heap.mk_state h (printTop t)).
Proof.
  intros Hr Hf. split.
  - now apply printBottom_repr.
  - now apply printTop_repr.
Qed.

Lemma views_on_store_sample :
  (Heap.repr Heap.sample_mem (Some 1%nat) sample /\
   tree_height sample < Z.of_nat 5) /\
  Heap.printBottom 5 (Some 1%nat) (Heap.mk_state Heap.sample_mem [])
  = (Done tt, Heap.mk_state Heap.sample_mem (printBottom sample)) /\
  Heap.printTop 5 (Some 1%nat) (Heap.mk_state Heap.sample_mem [])
  = (Done tt, Heap.mk_state Heap.sample_mem (printTop sample)).
Proof.
  assert (tree_height sample < Z.of_nat 5) as Hf by (vm_compute; reflexivity).
  split; [split; [exact sample_repr | exact Hf]|].
  exact (views_on_store _ _ _ 5%nat sample_repr Hf).
Defined.

(** X16. On a tree whose levels are [int] values, at every horizontal
    distance the node that [printTop] records is not deeper than the node
    that [printBottom] records. *)
Theorem top_not_below_bottom t d pt pb :
  tree_height t <= 2 ^ 31 ->
  map_find (printTop_fill t 0 0 []) d = Some pt ->
  map_find (printBottom_fill t 0 0 []) d = Some pb ->
  snd pt <= snd pb.
Proof.
  intros Hh Ht Hb.
  rewrite (printTop_fill_fold t 0 0 [] (fits_root t Hh)) in Ht.
  rewrite (printBottom_fill_fold t 0 0 [] (fits_root t Hh)) in Hb.
  destruct (top_fold_inv (coords t 0 0)) as (_ & _ & Htop).
  destruct (bottom_fold_inv (coords t 0 0) (coords_level_ge t 0 0)) as (_ & _ & Hbot).
  specialize (Htop _ _ Ht). specialize (Hbot _ _ Hb).
  apply (is_top_of_bound _ _ _ Htop (is_bottom_of_In _ _ Hbot)). reflexivity.
Qed.

Lemma top_not_below_bottom_sample :
  (tree_height sample <= 2 ^ 31 /\
   map_find (printTop_fill sample 0 0 []) (-1) = Some (2, 1) /\
   map_find (printBottom_fill sample 0 0 []) (-1) = Some (7, 3)) /\
  snd (2, 1) <= snd (7, 3).
Proof.
  assert (tree_height sample <= 2 ^ 31) as H by (vm_compute; discriminate).
  assert (map_find (printTop_fill sample 0 0 []) (-1) = Some (2, 1)) as Ht
    by reflexivity.
  assert (map_find (printBottom_fill sample 0 0 []) (-1) = Some (7, 3)) as Hb
    by reflexivity.
  split; [split; [exact H | split; [exact Ht | exact Hb]]|].
  exact (top_not_below_bottom sample (-1) (2, 1) (7, 3) H Ht Hb).
Defined.
